(** * keep-a-changelog: the markdown parser of [src/parser.ts]

    A shallow embedding of the tokenizer and of the token consumer, and the
    properties of the specification checked against them.

    Strings are [string]s whose characters stand for UTF-16 code units in
    the range 0..255; the white space of [trim], [trimEnd] and of the
    regular expression class [\s] is the ECMAScript set restricted to that
    range.  Exceptions are explicit: a computation either returns, throws a
    JavaScript error value, or runs out of fuel (which stands for a loop
    that does not terminate). *)

From Stdlib Require Import String Ascii List Bool Arith Lia NArith Sorted.
From Stdlib Require DecimalString.
Import ListNotations.

Local Open Scope string_scope.
Local Open Scope list_scope.

Infix "+++" := String.append (right associativity, at level 60).

(** ** JavaScript string primitives *)

Module JS.

Definition LF : ascii := "010"%char.
Definition DQ : ascii := "034"%char.

Definition nl : string := String LF EmptyString.
Definition dq : string := String DQ EmptyString.

(** WhiteSpace and LineTerminator code units below 256: TAB, LF, VT, FF,
    CR, SP and NBSP. *)
Definition isWhiteSpace (c : ascii) : bool :=
  match N_of_ascii c with
  | 9%N | 10%N | 11%N | 12%N | 13%N | 32%N | 160%N => true
  | _ => false
  end.

(** The characters the regular expression [.] refuses. *)
Definition isLineTerminator (c : ascii) : bool :=
  match N_of_ascii c with
  | 10%N | 13%N => true
  | _ => false
  end.

Definition isDigit (c : ascii) : bool :=
  let n := N_of_ascii c in (48 <=? n)%N && (n <=? 57)%N.

Definition isEmptyString (s : string) : bool :=
  match s with
  | EmptyString => true
  | String _ _ => false
  end.

(** A string in a boolean position: only the empty string is falsy. *)
Definition truthy (s : string) : bool := negb (isEmptyString s).

Fixpoint trimStart (s : string) : string :=
  match s with
  | EmptyString => EmptyString
  | String c s' => if isWhiteSpace c then trimStart s' else s
  end.

Fixpoint trimEnd (s : string) : string :=
  match s with
  | EmptyString => EmptyString
  | String c s' =>
      let t := trimEnd s' in
      if isWhiteSpace c && isEmptyString t then EmptyString else String c t
  end.

Definition trim (s : string) : string := trimEnd (trimStart s).

(** [s.split(sep)] for a separator of one character. *)
Fixpoint split (sep : ascii) (s : string) : list string :=
  match s with
  | EmptyString => [EmptyString]
  | String c s' =>
      if Ascii.eqb c sep then EmptyString :: split sep s'
      else match split sep s' with
           | l :: ls => String c l :: ls
           | [] => [String c EmptyString]
           end
  end.

Fixpoint startsWith (s p : string) {struct p} : bool :=
  match p, s with
  | EmptyString, _ => true
  | String a p', String b s' => Ascii.eqb a b && startsWith s' p'
  | String _ _, EmptyString => false
  end.

(** [s.substr(n)]: the string from index [n] on. *)
Fixpoint substr (n : nat) (s : string) : string :=
  match n, s with
  | O, _ => s
  | S n', String _ s' => substr n' s'
  | S _, EmptyString => EmptyString
  end.

Fixpoint includes (s p : string) : bool :=
  startsWith s p ||
  match s with
  | EmptyString => false
  | String _ s' => includes s' p
  end.

(** [a.join(sep)] on an array of strings. *)
Fixpoint join (sep : string) (a : list string) : string :=
  match a with
  | [] => EmptyString
  | [x] => x
  | x :: rest => x +++ sep +++ join sep rest
  end.

(** Lower case of one code unit below 256: A-Z, and the Latin-1 capitals
    U+00C0..U+00DE except the multiplication sign U+00D7. *)
Definition lowerChar (c : ascii) : ascii :=
  let n := N_of_ascii c in
  if ((65 <=? n) && (n <=? 90))%N
     || ((192 <=? n) && (n <=? 222) && negb (n =? 215))%N
  then ascii_of_N (n + 32) else c.

Fixpoint toLowerCase (s : string) : string :=
  match s with
  | EmptyString => EmptyString
  | String c s' => String (lowerChar c) (toLowerCase s')
  end.

(** Template-literal conversion of a line number. *)
Definition numberToString (n : nat) : string :=
  DecimalString.NilEmpty.string_of_uint (Nat.to_uint n).

End JS.

(** ** Regular expressions

    The patterns of the source use literals, greedy quantifiers over a
    character class, capturing groups that are not nested, and the two
    anchors.  Matching is backtracking with continuations, the longest
    repetition tried first, as in ECMAScript. *)

Module RegExp.

Inductive regex : Type :=
| Empty
| Char (c : ascii)
| Repeat (cls : ascii -> bool) (min : nat) (max : option nat)
| Seq (r1 r2 : regex)
| Group (r : regex)
| AssertStart
| AssertEnd.

Fixpoint cat (rs : list regex) : regex :=
  match rs with
  | [] => Empty
  | r :: rs' => Seq r (cat rs')
  end.

Fixpoint Lit (s : string) : regex :=
  match s with
  | EmptyString => Empty
  | String c s' => Seq (Char c) (Lit s')
  end.

Definition only (c : ascii) : ascii -> bool := Ascii.eqb c.
Definition except (c : ascii) : ascii -> bool := fun x => negb (Ascii.eqb c x).
Definition dot : ascii -> bool := fun x => negb (JS.isLineTerminator x).

Definition Star (cls : ascii -> bool) := Repeat cls 0 None.
Definition Plus (cls : ascii -> bool) := Repeat cls 1 None.
Definition Opt (cls : ascii -> bool) := Repeat cls 0 (Some 1).
Definition Times (cls : ascii -> bool) (n m : nat) := Repeat cls n (Some m).

Definition mayRepeat (max : option nat) : bool :=
  match max with
  | Some O => false
  | _ => true
  end.

Definition decr (max : option nat) : option nat :=
  match max with
  | Some n => Some (pred n)
  | None => None
  end.

Section Matcher.

Variable X : Type.

(** [cls{min,max}], greedy: take one more character when allowed and
    fall back to stopping here when the rest then fails. *)
Fixpoint repeatGreedy (cls : ascii -> bool) (min : nat) (max : option nat)
    (s : string) (k : string -> option X) : option X :=
  let stop := match min with O => k s | S _ => None end in
  match s with
  | String c s' =>
      if cls c && mayRepeat max then
        match repeatGreedy cls (pred min) (decr max) s' k with
        | Some r => Some r
        | None => stop
        end
      else stop
  | EmptyString => stop
  end.

(** The prefix of [s] read when the rest is [s']. *)
Definition consumed (s s' : string) : string :=
  String.substring 0 (String.length s - String.length s') s.

Fixpoint matchHere (input : string) (r : regex) (s : string)
    (caps : list string) (k : string -> list string -> option X) : option X :=
  match r with
  | Empty => k s caps
  | Char c =>
      match s with
      | String c' s' => if Ascii.eqb c c' then k s' caps else None
      | EmptyString => None
      end
  | Repeat cls min max => repeatGreedy cls min max s (fun s' => k s' caps)
  | Seq r1 r2 =>
      matchHere input r1 s caps (fun s' caps' => matchHere input r2 s' caps' k)
  | Group r1 =>
      matchHere input r1 s caps (fun s' caps' => k s' (caps' ++ [consumed s s']))
  | AssertStart =>
      if Nat.eqb (String.length s) (String.length input) then k s caps else None
  | AssertEnd =>
      match s with
      | EmptyString => k s caps
      | String _ _ => None
      end
  end.

End Matcher.

Arguments repeatGreedy {X}.
Arguments matchHere {X}.

(** What [match] and [replace] see of a match: where it starts, the text
    after it and the captured groups, [groups.[0]] being group 1. *)
Record MatchResult : Type := mkMatch {
  index : nat;
  matched : string;
  after : string;
  groups : list string
}.

Definition matchAt (input : string) (r : regex) (s : string) : option MatchResult :=
  matchHere input r s []
    (fun s' caps =>
       Some (mkMatch (String.length input - String.length s) (consumed s s') s' caps)).

(** The leftmost match: every start position from [s] on, in order. *)
Fixpoint search (input : string) (r : regex) (s : string) : option MatchResult :=
  match matchAt input r s with
  | Some m => Some m
  | None =>
      match s with
      | EmptyString => None
      | String _ s' => search input r s'
      end
  end.

(** [s.match(r)] for a pattern without the [g] flag. *)
Definition exec (r : regex) (s : string) : option MatchResult := search s r s.

(** [m[i]] for [i >= 1]. *)
Definition group (m : MatchResult) (i : nat) : option string :=
  nth_error (groups m) (pred i).

(** [s.replace(r, by)]: the first match replaced. *)
Definition replace (r : regex) (by_ : string) (s : string) : string :=
  match exec r s with
  | Some m => String.substring 0 (index m) s +++ by_ +++ after m
  | None => s
  end.

End RegExp.

(** ** Completions

    How a JavaScript computation ends.  [TypeError] is the fault of
    reading a property of [undefined]; [Diverge] is a loop that ran
    through its fuel. *)

Inductive JsError : Type :=
| Error (message : string)
| TypeError (message : string).

Definition message (e : JsError) : string :=
  match e with
  | Error m => m
  | TypeError m => m
  end.

Inductive completion (A : Type) : Type :=
| Normal (a : A)
| Throw (e : JsError)
| Diverge.

Arguments Normal {A} a.
Arguments Throw {A} e.
Arguments Diverge {A}.

Definition bindC {A B : Type} (c : completion A) (k : A -> completion B)
  : completion B :=
  match c with
  | Normal a => k a
  | Throw e => Throw e
  | Diverge => Diverge
  end.

Notation "x <- c ;; k" := (bindC c (fun x => k))
  (at level 61, c at next level, right associativity).

(** The fault of reading the property [property] of [undefined], with
    the message the engine gives it. *)
Definition undefinedRead (property : string) : JsError :=
  TypeError ("Cannot read properties of undefined (reading '" +++ property +++ "')").

Fixpoint mapC {A B : Type} (f : A -> completion B) (l : list A)
  : completion (list B) :=
  match l with
  | [] => Normal []
  | a :: l' => b <- f a ;; bs <- mapC f l' ;; Normal (b :: bs)
  end.

(** ** Tokens (parser.ts, lines 120-121) *)

Inductive TokenType : Type := h1 | h2 | h3 | li | para | link | flag | hr.

(** The string each token type is in the source; [para] is ["p"]. *)
Definition typeName (t : TokenType) : string :=
  match t with
  | h1 => "h1" | h2 => "h2" | h3 => "h3" | li => "li"
  | para => "p" | link => "link" | flag => "flag" | hr => "hr"
  end.

Definition TokenType_eqb (a b : TokenType) : bool :=
  match a, b with
  | h1, h1 | h2, h2 | h3, h3 | li, li
  | para, para | link, link | flag, flag | hr, hr => true
  | _, _ => false
  end.

(** [[number, TokenType, string[]]] *)
Definition Token : Type := nat * TokenType * list string.

(** What the [map] callback of [tokenize] returns: a token whose content
    array holds exactly one string, which [forEach] destructures again. *)
Definition LineToken : Type := nat * TokenType * string.

(** ** The tokenizer (parser.ts, lines 124-213) *)

Section Tokenizer.

Import JS RegExp.

(** [/^\[.*\]\:\s*http.*$/] *)
Definition linkLine : regex :=
  cat [AssertStart; Char "["; Star dot; Char "]"; Char ":";
       Star isWhiteSpace; Lit "http"; Star dot; AssertEnd].

(** [/^<!--( .* )-->$/], the group written here with blanks around it *)
Definition flagLine : regex :=
  cat [AssertStart; Lit "<!--"; Group (Star dot); Lit "-->"; AssertEnd].

(** [/^\s\s/] *)
Definition twoBlanks : regex :=
  cat [AssertStart; Times isWhiteSpace 1 1; Times isWhiteSpace 1 1].

(** The [map] callback, lines 130-167. *)
Definition lineToken (index : nat) (line : string) : completion LineToken :=
  let lineNumber := index + 1 in
  if startsWith line "---" then Normal (lineNumber, hr, "-")
  else if startsWith line "# " then Normal (lineNumber, h1, trim (substr 1 line))
  else if startsWith line "## " then Normal (lineNumber, h2, trim (substr 2 line))
  else if startsWith line "### " then Normal (lineNumber, h3, trim (substr 3 line))
  else if startsWith line "-" then Normal (lineNumber, li, trim (substr 1 line))
  else if startsWith line "*" then Normal (lineNumber, li, trim (substr 1 line))
  else match exec linkLine line with
       | Some _ => Normal (lineNumber, link, trim line)
       | None =>
           match exec flagLine line with
           | Some result =>
               match group result 1 with
               | Some inner => Normal (lineNumber, flag, trim inner)
               | None => Throw (undefinedRead "trim")
               end
           | None => Normal (lineNumber, para, trimEnd line)
           end
       end.

Fixpoint mapIndexed {A B : Type} (f : nat -> A -> completion B)
    (index : nat) (l : list A) : completion (list B) :=
  match l with
  | [] => Normal []
  | a :: l' => b <- f index a ;; bs <- mapIndexed f (S index) l' ;; Normal (b :: bs)
  end.

(** The [forEach] callback, lines 168-186.  [tokens] is built by
    [unshift], so its head is the token emitted last. *)
Definition mergeLine (tokens : list Token) (index : nat) (line : LineToken)
  : completion (list Token) :=
  let '(lineNumber, type, content) := line in
  let fresh := Normal ((lineNumber, type, [content]) :: tokens) in
  match index with
  | O => fresh
  | S _ =>
      match tokens with
      | [] => Throw (undefinedRead "1")
      | (prevLine, prevType, prevContent) :: rest =>
          match type, prevType with
          | para, para =>
              Normal ((prevLine, prevType, prevContent ++ [content]) :: rest)
          | para, li =>
              Normal ((prevLine, prevType,
                       prevContent ++ [replace twoBlanks EmptyString content]) :: rest)
          | _, _ => fresh
          end
      end
  end.

Fixpoint forEach (lines : list LineToken) (index : nat) (tokens : list Token)
  : completion (list Token) :=
  match lines with
  | [] => Normal tokens
  | line :: lines' =>
      tokens' <- mergeLine tokens index line ;; forEach lines' (S index) tokens'
  end.

(** The argument of [isEmpty]: a string, an array of strings, or the
    [undefined] an empty array gives when indexed. *)
Inductive StringOrArray : Type :=
| Str (s : string)
| Arr (a : list string)
| Undefined.

(** Lines 207-213. *)
Definition isEmpty (val : StringOrArray) : bool :=
  let val' := match val with
              | Arr a => Str (join EmptyString a)
              | other => other
              end in
  match val' with
  | Str s => isEmptyString s || String.eqb (trim s) EmptyString
  | _ => true
  end.

Definition at_ (a : list string) (i : option nat) : StringOrArray :=
  match i with
  | Some n => match nth_error a n with Some s => Str s | None => Undefined end
  | None => Undefined
  end.

(** [content.length - 1] is [-1] on the empty array, where nothing is. *)
Definition lastIndex (a : list string) : option nat :=
  match a with
  | [] => None
  | _ :: a' => Some (List.length a')
  end.

(** [while (isEmpty(content[content.length - 1])) content.pop()] *)
Fixpoint popLoop (fuel : nat) (content : list string) : completion (list string) :=
  match fuel with
  | O => Diverge
  | S fuel' =>
      if isEmpty (at_ content (lastIndex content))
      then popLoop fuel' (removelast content)
      else Normal content
  end.

(** [while (isEmpty(content[0])) content.shift()] *)
Fixpoint shiftLoop (fuel : nat) (content : list string) : completion (list string) :=
  match fuel with
  | O => Diverge
  | S fuel' =>
      if isEmpty (at_ content (Some 0))
      then shiftLoop fuel' (tl content)
      else Normal content
  end.

(** The second [map] callback, lines 190-202. *)
Definition trimToken (token : Token) : completion Token :=
  let '(lineNumber, type, content) := token in
  let fuel := S (List.length content) in
  content1 <- popLoop fuel content ;;
  content2 <- shiftLoop fuel content1 ;;
  Normal (lineNumber, type, content2).

Definition tokenize (markdown : string) : completion (list Token) :=
  lines <- mapIndexed lineToken 0 (split LF (trim markdown)) ;;
  tokens <- forEach lines 0 [] ;;
  kept <- mapC trimToken
            (filter (fun token => negb (isEmpty (Arr (snd token)))) tokens) ;;
  Normal (rev kept).

End Tokenizer.

(** ** The data containers

    [Changelog.ts] and [Release.ts] are imported by the parser and are
    not part of the sources at hand. *)

Module Release.

(** Modelled from the spec: the class [Release] of [Release.ts], a
    record of an optional version label, an optional date and an optional
    description, with the change entries grouped by type label, the labels
    in the order of their first entry and the entries of a label in the
    order they were added. *)
Record t : Type := mk {
  version : option string;
  date : option string;
  description : option string;
  changes : list (string * list string)
}.

Definition new (version date description : option string) : t :=
  mk version date description [].

Definition setDescription (d : string) (r : t) : t :=
  mk (version r) (date r) (Some d) (changes r).

Fixpoint insertChange (type change : string) (l : list (string * list string))
  : list (string * list string) :=
  match l with
  | [] => [(type, [change])]
  | (type', entries) :: l' =>
      if String.eqb type' type then (type', entries ++ [change]) :: l'
      else (type', entries) :: insertChange type change l'
  end.

Definition addChange (type change : string) (r : t) : t :=
  mk (version r) (date r) (description r) (insertChange type change (changes r)).

End Release.

(** What the parser asks of a release object, whatever class the
    [releaseCreator] builds: assignment to [description] and [addChange]. *)
Class ReleaseLike (R : Type) : Type := {
  setDescription : string -> R -> R;
  addChange : string -> string -> R -> R
}.

#[export] Instance Release_ReleaseLike : ReleaseLike Release.t := {
  setDescription := Release.setDescription;
  addChange := Release.addChange
}.

Module Changelog.

(** Modelled from the spec: the class [Changelog] of [Changelog.ts], a
    record of a title, the optional flag, description, url and footer
    ([None] while never assigned) and the releases in the order they were
    added. *)
Record t (R : Type) : Type := mk {
  flag : option string;
  title : string;
  description : option string;
  releases : list R;
  url : option string;
  footer : option string
}.

Arguments mk {R}.
Arguments flag {R}.
Arguments title {R}.
Arguments description {R}.
Arguments releases {R}.
Arguments url {R}.
Arguments footer {R}.

Definition new {R : Type} (title : string) : t R :=
  mk None title None [] None None.

Definition setFlag {R} (v : string) (c : t R) : t R :=
  mk (Some v) (title c) (description c) (releases c) (url c) (footer c).
Definition setTitle {R} (v : string) (c : t R) : t R :=
  mk (flag c) v (description c) (releases c) (url c) (footer c).
Definition setDescription {R} (v : string) (c : t R) : t R :=
  mk (flag c) (title c) (Some v) (releases c) (url c) (footer c).
Definition setUrl {R} (v : option string) (c : t R) : t R :=
  mk (flag c) (title c) (description c) (releases c) v (footer c).
Definition setFooter {R} (v : string) (c : t R) : t R :=
  mk (flag c) (title c) (description c) (releases c) (url c) (Some v).
Definition addRelease {R} (r : R) (c : t R) : t R :=
  mk (flag c) (title c) (description c) (releases c ++ [r]) (url c) (footer c).

End Changelog.

(** Lines 4-19. *)
Record Options (R : Type) : Type := {
  releaseCreator : option string -> option string -> option string -> R
}.

Arguments releaseCreator {R}.

Definition defaultOptions : Options Release.t :=
  {| releaseCreator := Release.new |}.

(** ** The token consumer (parser.ts, lines 22-118)

    The token array is one mutable queue, shared by [parser],
    [processTokens] and [getContent]: a computation takes the queue and
    gives it back with its completion, also when it throws, since the
    handler of [parser] reads the queue after the failure. *)

Definition M (A : Type) : Type := list Token -> completion A * list Token.

Definition ret {A : Type} (a : A) : M A := fun tokens => (Normal a, tokens).

Definition throw {A : Type} (e : JsError) : M A := fun tokens => (Throw e, tokens).

Definition diverge {A : Type} : M A := fun tokens => (Diverge, tokens).

Definition bind {A B : Type} (m : M A) (k : A -> M B) : M B :=
  fun tokens =>
    match m tokens with
    | (Normal a, tokens') => k a tokens'
    | (Throw e, tokens') => (Throw e, tokens')
    | (Diverge, tokens') => (Diverge, tokens')
    end.

Definition lift {A : Type} (c : completion A) : M A := fun tokens => (c, tokens).

Notation "x <~ m ;; k" := (bind m (fun x => k))
  (at level 61, m at next level, right associativity).

Section Parser.

Import JS RegExp.

(** JSON.stringify on a string: the quote, the backslash and the control
    characters are escaped. *)
Definition hexDigit (n : N) : ascii :=
  ascii_of_N (if (n <? 10)%N then 48 + n else 87 + n).

Definition jsonChar (c : ascii) : string :=
  let n := N_of_ascii c in
  match n with
  | 34%N => "\" +++ dq
  | 92%N => "\\"
  | 8%N => "\b"
  | 9%N => "\t"
  | 10%N => "\n"
  | 12%N => "\f"
  | 13%N => "\r"
  | _ => if (n <? 32)%N
         then "\u00" +++ String (hexDigit (n / 16)) (String (hexDigit (n mod 16)) EmptyString)
         else String c EmptyString
  end.

Fixpoint jsonChars (s : string) : string :=
  match s with
  | EmptyString => EmptyString
  | String c s' => jsonChar c +++ jsonChars s'
  end.

Definition jsonString (s : string) : string := dq +++ jsonChars s +++ dq.

Definition jsonToken (t : Token) : string :=
  let '(lineNumber, type, content) := t in
  "[" +++ numberToString lineNumber +++ "," +++ jsonString (typeName type) +++ ","
      +++ "[" +++ join "," (map jsonString content) +++ "]" +++ "]".

Definition jsonTokens (tokens : list Token) : string :=
  "[" +++ join "," (map jsonToken tokens) +++ "]".

(** Lines 104-118. *)
Definition getContent (type : TokenType) (required : bool) : M string :=
  fun tokens =>
    match tokens with
    | [] =>
        if required then (Throw (undefinedRead "0"), tokens)
        else (Normal EmptyString, tokens)
    | (lineNumber, type', content) :: rest =>
        if negb (TokenType_eqb type' type) then
          if required then
            (Throw (Error ("Required token missing in: " +++ dq
                             +++ numberToString lineNumber +++ dq)), tokens)
          else (Normal EmptyString, tokens)
        else (Normal (join nl content), rest)
    end.

(** [while ((x = cond)) body], the state of the loop being what the body
    updates. *)
Fixpoint while {S : Type} (fuel : nat) (cond : M string)
    (body : string -> S -> M S) (s : S) : M S :=
  match fuel with
  | O => diverge
  | Datatypes.S fuel' =>
      x <~ cond ;;
      if truthy x then s' <~ body x s ;; while fuel' cond body s'
      else ret s
  end.

Definition datePattern : regex :=
  cat [Times isDigit 4 4; Char "-"; Times isDigit 1 2; Char "-"; Times isDigit 1 2].

(** [/\[?([^\]]+)\]?\s*-\s*([\d]{4}-[\d]{1,2}-[\d]{1,2})$/] *)
Definition datedRelease : regex :=
  cat [Opt (only "["); Group (Plus (except "]")); Opt (only "]");
       Star isWhiteSpace; Char "-"; Star isWhiteSpace; Group datePattern;
       AssertEnd].

(** [/\[?([^\]]+)\]?\s*-\s*unreleased$/] *)
Definition unreleasedRelease : regex :=
  cat [Opt (only "["); Group (Plus (except "]")); Opt (only "]");
       Star isWhiteSpace; Char "-"; Star isWhiteSpace; Lit "unreleased";
       AssertEnd].

(** [/^\[.*\]\:\s*(http.* )\/compare\/.*$/], the group written here with a
    blank before it closes *)
Definition compareLink : regex :=
  cat [AssertStart; Char "["; Star dot; Char "]"; Char ":"; Star isWhiteSpace;
       Group (Seq (Lit "http") (Star dot)); Lit "/compare/"; Star dot; AssertEnd].

(** Lines 47-60: the arguments the release is created with, from the
    lower-cased text of the [h2] token. *)
Definition releaseArguments (release : string)
  : completion (option string * option string) :=
  match exec datedRelease release with
  | Some matches => Normal (group matches 1, group matches 2)
  | None =>
      if includes release "unreleased" then
        match exec unreleasedRelease release with
        | Some matches => Normal (group matches 1, None)
        | None => Normal (None, None)
        end
      else Throw (Error "Syntax error in the release title")
  end.

Context {R : Type} `{ReleaseLike R}.
Variable opts : Options R.

(** Lines 70-72. *)
Definition changesLoop (fuel : nat) (type : string) (release : R) : M R :=
  while fuel (getContent li false)
    (fun change release => ret (addChange type change release)) release.

(** Lines 67-73. *)
Definition typesLoop (fuel : nat) (release : R) : M R :=
  while fuel (type <~ getContent h3 false ;; ret (toLowerCase type))
    (fun type release => changesLoop fuel type release) release.

(** Lines 46-74.  The source adds the release object to the changelog
    at line 62 and fills it afterwards through the variable [release];
    the list holds that same object, so what it holds in the end is the
    release as filled. *)
Definition releasesLoop (fuel : nat) (changelog : Changelog.t R) : M (Changelog.t R) :=
  while fuel (release <~ getContent h2 false ;; ret (toLowerCase release))
    (fun release changelog =>
       args <~ lift (releaseArguments release) ;;
       let release := releaseCreator opts (fst args) (snd args) None in
       description <~ getContent para false ;;
       let release := setDescription description release in
       release <~ typesLoop fuel release ;;
       ret (Changelog.addRelease release changelog))
    changelog.

(** [!changelog.url] *)
Definition urlUnset (changelog : Changelog.t R) : bool :=
  match Changelog.url changelog with
  | Some u => negb (truthy u)
  | None => true
  end.

(** Lines 77-89. *)
Definition linksLoop (fuel : nat) (changelog : Changelog.t R) : M (Changelog.t R) :=
  while fuel (getContent link false)
    (fun link changelog =>
       if urlUnset changelog then
         match exec compareLink link with
         | Some matches => ret (Changelog.setUrl (group matches 1) changelog)
         | None => ret changelog
         end
       else ret changelog)
    changelog.

(** Lines 92-94. *)
Definition footerPart (changelog : Changelog.t R) : M (Changelog.t R) :=
  rule <~ getContent hr false ;;
  if truthy rule then
    footer <~ getContent para false ;;
    ret (Changelog.setFooter footer changelog)
  else ret changelog.

(** Lines 96-100. *)
Definition endPart (changelog : Changelog.t R) : M (Changelog.t R) :=
  fun tokens =>
    match tokens with
    | [] => (Normal changelog, tokens)
    | _ :: _ => (Throw (Error ("Unexpected content " +++ jsonTokens tokens)), tokens)
    end.

(** Lines 37-41. *)
Definition headerPart : M (Changelog.t R) :=
  let changelog := Changelog.new EmptyString in
  flag <~ getContent flag false ;;
  let changelog := Changelog.setFlag flag changelog in
  title <~ getContent h1 true ;;
  let changelog := Changelog.setTitle title changelog in
  description <~ getContent para false ;;
  ret (Changelog.setDescription description changelog).

(** What runs before the footer is looked at: lines 37-89.  Every turn of
    a loop takes a token off the queue, so the length of the queue bounds
    the turns. *)
Definition beforeFooter : M (Changelog.t R) :=
  fun tokens =>
    let fuel := Datatypes.S (List.length tokens) in
    (changelog <~ headerPart ;;
     changelog <~ releasesLoop fuel changelog ;;
     linksLoop fuel changelog) tokens.

(** Lines 36-101. *)
Definition processTokens : M (Changelog.t R) :=
  changelog <~ beforeFooter ;;
  changelog <~ footerPart changelog ;;
  endPart changelog.

(** Lines 22-33, for the options as merged at line 23.  The handler reads
    [tokens[0][0]] of the queue as the failure left it. *)
Definition parser (markdown : string) : completion (Changelog.t R) :=
  tokens <- tokenize markdown ;;
  match processTokens tokens with
  | (Normal changelog, _) => Normal changelog
  | (Throw error, []) => Throw (undefinedRead "0")
  | (Throw error, (lineNumber, _, _) :: _) =>
      Throw (Error ("Parse error in the line " +++ numberToString lineNumber
                      +++ ": " +++ message error))
  | (Diverge, _) => Diverge
  end.

End Parser.

(** ** Notions the properties are stated with *)

(** Every character of the string is white space (the empty string too). *)
Fixpoint allWhiteSpace (s : string) : bool :=
  match s with
  | EmptyString => true
  | String c s' => JS.isWhiteSpace c && allWhiteSpace s'
  end.

Definition suffixOf (s' s : string) : Prop := exists p, s = p +++ s'.

Definition substringOf (g s : string) : Prop := exists a b, s = a +++ g +++ b.

(** The number of capturing groups of a pattern. *)
Fixpoint ngroups (r : RegExp.regex) : nat :=
  match r with
  | RegExp.Seq r1 r2 => ngroups r1 + ngroups r2
  | RegExp.Group r1 => S (ngroups r1)
  | _ => 0
  end.

(** The pattern has no [^]. *)
Fixpoint anchorFree (r : RegExp.regex) : bool :=
  match r with
  | RegExp.Seq r1 r2 => anchorFree r1 && anchorFree r2
  | RegExp.Group r1 => anchorFree r1
  | RegExp.AssertStart => false
  | _ => true
  end.

(** The groups of an attempt at the position [s], whatever the text is
    that [s] ends. *)
Definition groupsAt (r : RegExp.regex) (s : string) : option (list string) :=
  RegExp.matchHere s r s [] (fun _ caps => Some caps).

(** The groups of a match of [^r] against the whole of [u]. *)
Definition matchesFromStart (r : RegExp.regex) (u : string) : option (list string) :=
  option_map RegExp.groups (RegExp.exec (RegExp.Seq RegExp.AssertStart r) u).

(** The longest suffix of [t] that [^r] matches, by its groups. *)
Fixpoint leftmostSuffix (r : RegExp.regex) (t : string) : option (list string) :=
  match matchesFromStart r t with
  | Some g => Some g
  | None =>
      match t with
      | EmptyString => None
      | String _ t' => leftmostSuffix r t'
      end
  end.

(** The wording of the specification for a continuation line, "up to two
    leading spaces stripped": one leading space goes when there is one, two
    when there are two. *)
Definition stripUpToTwoSpaces (line : string) : string :=
  match line with
  | String " " (String " " rest) => rest
  | String " " rest => rest
  | _ => line
  end.

(** What replacing [/^\s\s/] by the empty string is on a string: two
    characters off the front when both are white space. *)
Definition dropTwoBlanks (line : string) : string :=
  match line with
  | String a (String b rest) =>
      if JS.isWhiteSpace a && JS.isWhiteSpace b then rest else line
  | _ => line
  end.

(** A computation on a queue shorter than [n] ends and does not make the
    queue longer. *)
Definition calm (n : nat) {A : Type} (m : M A) : Prop :=
  forall tokens,
    List.length tokens < n ->
    fst (m tokens) <> Diverge /\
    List.length (snd (m tokens)) <= List.length tokens.

(** A loop condition ends, and takes a token off the queue whenever it
    gives a string that is not empty. *)
Definition taking (m : M string) : Prop :=
  forall tokens,
    fst (m tokens) <> Diverge /\
    List.length (snd (m tokens)) <= List.length tokens /\
    (forall x, fst (m tokens) = Normal x -> JS.truthy x = true ->
               List.length (snd (m tokens)) < List.length tokens).

(** The text whose lines are [l], each but the last ended by a line
    feed. *)
Definition text (l : list string) : string := JS.join JS.nl l.

(** The dated-release pattern as the specification writes it, with [^]
    in front. *)
Definition claimedDatedRelease : RegExp.regex :=
  RegExp.Seq RegExp.AssertStart datedRelease.

(** The labelled-unreleased pattern as the specification writes it. *)
Definition claimedUnreleasedRelease : RegExp.regex :=
  RegExp.Seq RegExp.AssertStart unreleasedRelease.

(** The changelog of the round-trip example. *)
Definition changelogExample : string :=
  text ["# Title"; EmptyString; "## 1.0.0 - 2024-01-15"; EmptyString;
        "### Added"; "- Thing one"; "- Thing two"; EmptyString].

(** ** Notions of the further properties *)

Definition lineOf (t : Token) : nat := fst (fst t).
Definition typeOf (t : Token) : TokenType := snd (fst t).
Definition contentOf (t : Token) : list string := snd t.

(** The lines of a content array from its first line that is not blank. *)
Fixpoint dropLeadingBlank (content : list string) : list string :=
  match content with
  | [] => []
  | x :: content' =>
      if allWhiteSpace x then dropLeadingBlank content' else content
  end.

(** The lines of a content array up to its last line that is not blank. *)
Definition dropTrailingBlank (content : list string) : list string :=
  List.rev (dropLeadingBlank (List.rev content)).

Definition trimmedContent (content : list string) : list string :=
  dropLeadingBlank (dropTrailingBlank content).

(** The first and the last line of a content array are not blank. *)
Definition solidEnds (content : list string) : Prop :=
  exists x rest,
    content = x :: rest /\
    allWhiteSpace x = false /\
    allWhiteSpace (List.last content EmptyString) = false.

(** A token with the blank lines at both ends of its content taken off. *)
Definition trimContent (t : Token) : Token :=
  (lineOf t, typeOf t, trimmedContent (contentOf t)).

(** The line tokens carry the numbers [index + 1], [index + 2], ... *)
Fixpoint numbered (index : nat) (lines : list LineToken) : Prop :=
  match lines with
  | [] => True
  | (lineNumber, _, _) :: lines' =>
      lineNumber = index + 1 /\ numbered (S index) lines'
  end.

(** Only paragraphs and list items hold more than one line; a rule holds
    the line [-]. *)
Definition oneLine (t : Token) : Prop :=
  match typeOf t with
  | para | li => True
  | hr => contentOf t = ["-"]
  | _ => exists c, contentOf t = [c]
  end.

(** The merged tokens, last one first, have falling line numbers, none
    above the number of lines seen. *)
Definition falling (index : nat) (tokens : list Token) : Prop :=
  StronglySorted gt (map lineOf tokens) /\
  Forall (fun t => 1 <= lineOf t <= index) tokens.

(** A computation only takes tokens off the front of the queue. *)
Definition leaves {A : Type} (m : M A) : Prop :=
  forall tokens, exists taken, tokens = taken ++ snd (m tokens).

(** Two changelogs with the same flag, title and description. *)
Definition sameHeader {R : Type} (a b : Changelog.t R) : Prop :=
  Changelog.flag b = Changelog.flag a /\
  Changelog.title b = Changelog.title a /\
  Changelog.description b = Changelog.description a.

(** Every character of the string is in the class. *)
Fixpoint allIn (cls : ascii -> bool) (w : string) : bool :=
  match w with
  | EmptyString => true
  | String c w' => cls c && allIn cls w'
  end.

Definition withinMax (max : option nat) (n : nat) : Prop :=
  match max with
  | Some m => n <= m
  | None => True
  end.

(** The strings a pattern stands for, an anchor standing for the empty
    string. *)
Inductive denotes : RegExp.regex -> string -> Prop :=
| denotes_Empty : denotes RegExp.Empty EmptyString
| denotes_Char c : denotes (RegExp.Char c) (String c EmptyString)
| denotes_Repeat cls min max w :
    allIn cls w = true -> min <= String.length w ->
    withinMax max (String.length w) ->
    denotes (RegExp.Repeat cls min max) w
| denotes_Seq r1 r2 w1 w2 :
    denotes r1 w1 -> denotes r2 w2 -> denotes (RegExp.Seq r1 r2) (w1 +++ w2)
| denotes_Group r w : denotes r w -> denotes (RegExp.Group r) w
| denotes_Start : denotes RegExp.AssertStart EmptyString
| denotes_End : denotes RegExp.AssertEnd EmptyString.

(** The patterns inside the groups of a pattern, in the order of the
    captures. *)
Fixpoint groupSpecs (r : RegExp.regex) : list RegExp.regex :=
  match r with
  | RegExp.Seq r1 r2 => groupSpecs r1 ++ groupSpecs r2
  | RegExp.Group r1 => groupSpecs r1 ++ [r1]
  | _ => []
  end.

(** Four digits, one or two digits, one or two digits, with dashes
    between. *)
Definition dateShape (date : string) : Prop :=
  exists y m d,
    date = y +++ "-" +++ m +++ "-" +++ d /\
    allIn JS.isDigit y = true /\ String.length y = 4 /\
    allIn JS.isDigit m = true /\ 1 <= String.length m <= 2 /\
    allIn JS.isDigit d = true /\ 1 <= String.length d <= 2.

(** The number of tokens of a type in a queue. *)
Definition countType (type : TokenType) (tokens : list Token) : nat :=
  List.length (filter (fun t => TokenType_eqb (typeOf t) type) tokens).

(** Every token of the queue has content that joins to a string that is
    not empty, as the tokens of [tokenize] have. *)
Definition allTruthy (tokens : list Token) : Prop :=
  Forall (fun t => JS.truthy (JS.join JS.nl (contentOf t)) = true) tokens.

(** A computation takes no [h2] token. *)
Definition keepsHeaders {A : Type} (m : M A) : Prop :=
  forall tokens, countType h2 (snd (m tokens)) = countType h2 tokens.

(** A computation takes no token of the type. *)
Definition keeps (type : TokenType) {A : Type} (m : M A) : Prop :=
  forall tokens, countType type (snd (m tokens)) = countType type tokens.

(** The release was made by a call of the factory with the arguments
    that [releaseArguments] finds in the lower-cased text of an [h2] token
    of the queue, and by assignments to its description and calls of
    [addChange] after that. *)
Inductive createdFrom {R : Type} {RL : ReleaseLike R} (opts : Options R)
    (tokens : list Token) : R -> Prop :=
| created_new (l : nat) (c : list string) (label date : option string) :
    In (l, h2, c) tokens ->
    releaseArguments (JS.toLowerCase (JS.join JS.nl c)) = Normal (label, date) ->
    createdFrom opts tokens (releaseCreator opts label date None)
| created_described (d : string) (r : R) :
    createdFrom opts tokens r -> createdFrom opts tokens (setDescription d r)
| created_changed (type change : string) (r : R) :
    createdFrom opts tokens r -> createdFrom opts tokens (addChange type change r).

(** The version of a release record, when it has one, is in lower case
    and is a piece of the lower-cased text of an [h2] token of the queue. *)
Definition lowerCaseLabel (tokens : list Token) (r : Release.t) : Prop :=
  forall label,
    Release.version r = Some label ->
    JS.toLowerCase label = label /\
    exists l c,
      In (l, h2, c) tokens /\
      substringOf label (JS.toLowerCase (JS.join JS.nl c)).

(** * Properties *)

(** ** Strings *)

Lemma append_empty_r (s : string) : s +++ EmptyString = s.
Proof. induction s as [|c s IH]; simpl; [reflexivity | now rewrite IH]. Qed.

Lemma append_assoc (a b c : string) : (a +++ b) +++ c = a +++ b +++ c.
Proof. induction a as [|x a IH]; simpl; [reflexivity | now rewrite IH]. Qed.

Lemma length_append (a b : string) :
  String.length (a +++ b) = String.length a + String.length b.
Proof. induction a as [|x a IH]; simpl; [reflexivity | now rewrite IH]. Qed.

Lemma substring_prefix (p s : string) :
  String.substring 0 (String.length p) (p +++ s) = p.
Proof.
  induction p as [|x p IH]; simpl.
  - destruct s; reflexivity.
  - now rewrite IH.
Qed.

Lemma suffixOf_refl (s : string) : suffixOf s s.
Proof. exists EmptyString. reflexivity. Qed.

Lemma suffixOf_trans (a b c : string) : suffixOf a b -> suffixOf b c -> suffixOf a c.
Proof.
  intros [p Hp] [q Hq]. exists (q +++ p). subst. now rewrite append_assoc.
Qed.

Lemma suffixOf_tail (c : ascii) (s : string) : suffixOf s (String c s).
Proof. exists (String c EmptyString). reflexivity. Qed.

Lemma suffixOf_length (a b : string) :
  suffixOf a b -> String.length a <= String.length b.
Proof. intros [p ->]. rewrite length_append. lia. Qed.

Lemma consumed_suffix (p s' : string) : RegExp.consumed (p +++ s') s' = p.
Proof.
  unfold RegExp.consumed. rewrite length_append.
  replace (String.length p + String.length s' - String.length s')
    with (String.length p) by lia.
  apply substring_prefix.
Qed.

Lemma substringOf_suffix (g s' s : string) :
  substringOf g s' -> suffixOf s' s -> substringOf g s.
Proof.
  intros [a [b ->]] [p ->]. exists (p +++ a), b. now rewrite append_assoc.
Qed.

Lemma consumed_substring (s s' : string) :
  suffixOf s' s -> substringOf (RegExp.consumed s s') s.
Proof.
  intros [p ->]. rewrite consumed_suffix. exists EmptyString, s'. reflexivity.
Qed.

Lemma allWhiteSpace_trimStart (s : string) :
  allWhiteSpace s = true -> JS.trimStart s = EmptyString.
Proof.
  induction s as [|c s IH]; simpl; [reflexivity|].
  intros H. apply andb_prop in H as [Hc Hs]. rewrite Hc. auto.
Qed.

Lemma allWhiteSpace_trim (s : string) :
  allWhiteSpace s = true -> JS.trim s = EmptyString.
Proof. intros H. unfold JS.trim. now rewrite allWhiteSpace_trimStart. Qed.

Lemma lowerChar_idempotent (c : ascii) :
  JS.lowerChar (JS.lowerChar c) = JS.lowerChar c.
Proof.
  destruct c as [[] [] [] [] [] [] [] []]; vm_compute; reflexivity.
Qed.

Lemma toLowerCase_idempotent (s : string) :
  JS.toLowerCase (JS.toLowerCase s) = JS.toLowerCase s.
Proof.
  induction s as [|c s IH]; simpl; [reflexivity|].
  now rewrite lowerChar_idempotent, IH.
Qed.

Lemma toLowerCase_append (a b : string) :
  JS.toLowerCase (a +++ b) = JS.toLowerCase a +++ JS.toLowerCase b.
Proof. induction a as [|c a IH]; simpl; [reflexivity | now rewrite IH]. Qed.

Lemma toLowerCase_length (s : string) :
  String.length (JS.toLowerCase s) = String.length s.
Proof. induction s as [|c s IH]; simpl; [reflexivity | now rewrite IH]. Qed.

Lemma append_cancel (a a' b b' : string) :
  String.length a = String.length a' -> a +++ b = a' +++ b' -> a = a' /\ b = b'.
Proof.
  revert a'. induction a as [|x a IH]; intros [|y a']; simpl; try discriminate.
  - auto.
  - intros Hl Heq. injection Hl as Hl. injection Heq as -> Heq.
    destruct (IH a' Hl Heq) as [-> ->]. auto.
Qed.

(** A piece of a lower-cased string is in lower case. *)
Lemma substringOf_lower (g t : string) :
  substringOf g (JS.toLowerCase t) -> JS.toLowerCase g = g.
Proof.
  intros [a [b Heq]].
  assert (Hl : JS.toLowerCase (a +++ g +++ b) = a +++ g +++ b)
    by (rewrite <- Heq; apply toLowerCase_idempotent).
  rewrite !toLowerCase_append in Hl.
  apply append_cancel in Hl as [_ Hl]; [| apply toLowerCase_length].
  apply append_cancel in Hl as [Hl _]; [| apply toLowerCase_length].
  exact Hl.
Qed.

(** ** The matcher *)

Section MatcherFacts.

Import RegExp.

Lemma repeatGreedy_ext {X} cls min max s (k1 k2 : string -> option X) :
  (forall s', k1 s' = k2 s') ->
  repeatGreedy cls min max s k1 = repeatGreedy cls min max s k2.
Proof.
  intros Hk. revert min max.
  induction s as [|c s IH]; intros min max; simpl.
  - destruct min; auto.
  - rewrite (IH (pred min) (decr max)). rewrite Hk. reflexivity.
Qed.

Lemma matchHere_ext {X} input r :
  forall s caps (k1 k2 : string -> list string -> option X),
    (forall s' caps', k1 s' caps' = k2 s' caps') ->
    matchHere input r s caps k1 = matchHere input r s caps k2.
Proof.
  induction r as [ | c | cls min max | r1 IHr1 r2 IHr2 | r1 IHr | | ]; intros s caps k1 k2 Hk; simpl.
  - apply Hk.
  - destruct s; auto. now rewrite Hk.
  - apply repeatGreedy_ext. auto.
  - apply IHr1. intros. apply IHr2. auto.
  - apply IHr. intros. apply Hk.
  - now rewrite Hk.
  - destruct s; auto.
Qed.

(** Mapping the result of the continuation maps the result of the match. *)
Lemma repeatGreedy_map {X Y} (f : X -> Y) cls min max s (k : string -> option X) :
  repeatGreedy cls min max s (fun s' => option_map f (k s'))
  = option_map f (repeatGreedy cls min max s k).
Proof.
  revert min max. induction s as [|c s IH]; intros min max; simpl.
  - destruct min; reflexivity.
  - rewrite IH.
    destruct (cls c && mayRepeat max).
    + destruct (repeatGreedy cls (pred min) (decr max) s k); simpl;
        [reflexivity | destruct min; reflexivity].
    + destruct min; reflexivity.
Qed.

Lemma matchHere_map {X Y} (f : X -> Y) input r :
  forall s caps (k : string -> list string -> option X),
    matchHere input r s caps (fun s' caps' => option_map f (k s' caps'))
    = option_map f (matchHere input r s caps k).
Proof.
  induction r as [ | c | cls min max | r1 IHr1 r2 IHr2 | r1 IHr | | ]; intros s caps k; simpl.
  - reflexivity.
  - destruct s as [|a s]; auto. destruct (Ascii.eqb c a); auto.
  - apply (repeatGreedy_map f cls min max s (fun s' => k s' caps)).
  - rewrite <- IHr1. apply matchHere_ext. intros. apply IHr2.
  - apply (IHr s caps (fun s' caps' => k s' (caps' ++ [consumed s s']))).
  - destruct (Nat.eqb _ _); auto.
  - destruct s; auto.
Qed.

(** A successful repetition hands a suffix to its continuation. *)
Lemma repeatGreedy_inv {X} cls min max s (k : string -> option X) x :
  repeatGreedy cls min max s k = Some x ->
  exists s', suffixOf s' s /\ k s' = Some x.
Proof.
  revert min max. induction s as [|c s IH]; intros min max; simpl.
  - destruct min; [|discriminate]. intros Hk.
    exists EmptyString. split; [apply suffixOf_refl | exact Hk].
  - assert (Hstop : match min with O => k (String c s) | S _ => None end = Some x ->
                    exists s', suffixOf s' (String c s) /\ k s' = Some x).
    { destruct min; [|discriminate]. intros Hk.
      exists (String c s). split; [apply suffixOf_refl | exact Hk]. }
    destruct (cls c && mayRepeat max); [|exact Hstop].
    destruct (repeatGreedy cls (pred min) (decr max) s k) eqn:Hrec; [|exact Hstop].
    intros Hx. injection Hx as ->.
    destruct (IH _ _ Hrec) as [s' [Hs Hk]].
    exists s'. split; [|exact Hk].
    eapply suffixOf_trans; [exact Hs | apply suffixOf_tail].
Qed.

(** A successful match hands its continuation a suffix of the text and
    the captures so far followed by one capture per group, each a piece of
    the text. *)
Lemma matchHere_inv {X} input r :
  forall s caps (k : string -> list string -> option X) x,
    matchHere input r s caps k = Some x ->
    exists s' new,
      suffixOf s' s /\ k s' (caps ++ new) = Some x /\
      List.length new = ngroups r /\ Forall (fun g => substringOf g s) new.
Proof.
  induction r as [ | c | cls min max | r1 IHr1 r2 IHr2 | r1 IHr | | ]; intros s caps k x; simpl.
  - intros Hk. exists s, []. rewrite app_nil_r.
    repeat split; auto using suffixOf_refl.
  - destruct s as [|c' s]; [discriminate|].
    destruct (Ascii.eqb c c'); [|discriminate].
    intros Hk. exists s, []. rewrite app_nil_r.
    repeat split; auto using suffixOf_tail.
  - intros Hk. apply repeatGreedy_inv in Hk as [s' [Hs Hk]].
    exists s', []. rewrite app_nil_r. repeat split; auto.
  - intros Hm. apply IHr1 in Hm as [s1 [new1 [Hs1 [Hm [Hl1 Hf1]]]]].
    apply IHr2 in Hm as [s2 [new2 [Hs2 [Hm [Hl2 Hf2]]]]].
    exists s2, (new1 ++ new2). rewrite app_assoc.
    repeat split.
    + eapply suffixOf_trans; eauto.
    + exact Hm.
    + rewrite length_app. lia.
    + apply Forall_app. split; [exact Hf1|].
      eapply Forall_impl; [|exact Hf2].
      intros g Hg. eapply substringOf_suffix; [exact Hg | exact Hs1].
  - intros Hm. apply IHr in Hm as [s' [new [Hs [Hm [Hl Hf]]]]].
    exists s', (new ++ [consumed s s']). rewrite app_assoc.
    repeat split.
    + exact Hs.
    + exact Hm.
    + rewrite length_app. simpl. lia.
    + apply Forall_app. split; [exact Hf|].
      constructor; [|constructor]. now apply consumed_substring.
  - destruct (Nat.eqb _ _); [|discriminate].
    intros Hk. exists s, []. rewrite app_nil_r.
    repeat split; auto using suffixOf_refl.
  - destruct s; [|discriminate].
    intros Hk. exists EmptyString, []. rewrite app_nil_r.
    repeat split; auto using suffixOf_refl.
Qed.

(** Only [^] looks at the text before the current position. *)
Lemma matchHere_input {X} input1 input2 r :
  anchorFree r = true ->
  forall s caps (k : string -> list string -> option X),
    matchHere input1 r s caps k = matchHere input2 r s caps k.
Proof.
  induction r as [ | c | cls min max | r1 IHr1 r2 IHr2 | r1 IHr | | ]; simpl; intros Hfree s caps k;
    try reflexivity; try discriminate; [|now apply IHr].
  apply andb_prop in Hfree as [H1 H2].
  rewrite IHr1 by exact H1.
  apply matchHere_ext. intros. now apply IHr2.
Qed.

Lemma matchAt_groups input r s :
  anchorFree r = true ->
  option_map groups (matchAt input r s) = groupsAt r s.
Proof.
  intros Hfree. unfold matchAt, groupsAt.
  rewrite <- (matchHere_map groups). simpl.
  apply matchHere_input. exact Hfree.
Qed.

Lemma matchAt_start_groups r s :
  option_map groups (matchAt s (Seq AssertStart r) s) = groupsAt r s.
Proof.
  unfold matchAt, groupsAt. simpl. rewrite Nat.eqb_refl.
  rewrite <- (matchHere_map groups). reflexivity.
Qed.

Lemma matchAt_start_later input r s :
  String.length s < String.length input ->
  matchAt input (Seq AssertStart r) s = None.
Proof.
  intros Hlt. unfold matchAt. simpl.
  destruct (Nat.eqb_spec (String.length s) (String.length input)); [lia|reflexivity].
Qed.

Lemma search_start_later input r s :
  String.length s < String.length input ->
  search input (Seq AssertStart r) s = None.
Proof.
  induction s as [|c s IH]; intros Hlt; simpl.
  - now rewrite matchAt_start_later.
  - rewrite matchAt_start_later by exact Hlt. apply IH. simpl in Hlt. lia.
Qed.

(** A pattern that begins with [^] is tried at the start only. *)
Lemma exec_start r s :
  exec (Seq AssertStart r) s = matchAt s (Seq AssertStart r) s.
Proof.
  unfold exec. destruct s as [|c s]; simpl.
  - destruct (matchAt _ _ _); reflexivity.
  - destruct (matchAt _ _ _); [reflexivity|].
    apply search_start_later. simpl. lia.
Qed.

Lemma matchesFromStart_groupsAt r s : matchesFromStart r s = groupsAt r s.
Proof. unfold matchesFromStart. rewrite exec_start. apply matchAt_start_groups. Qed.

Lemma search_leftmostSuffix input r s :
  anchorFree r = true ->
  option_map groups (search input r s) = leftmostSuffix r s.
Proof.
  intros Hfree. induction s as [|c s IH]; simpl.
  - rewrite matchesFromStart_groupsAt, <- (matchAt_groups input) by exact Hfree.
    destruct (matchAt input r EmptyString); reflexivity.
  - rewrite matchesFromStart_groupsAt, <- (matchAt_groups input) by exact Hfree.
    destruct (matchAt input r (String c s)); simpl; [reflexivity | exact IH].
Qed.

(** Without [^], [match] finds the longest suffix that the pattern
    matches from its start. *)
Lemma exec_leftmostSuffix r t :
  anchorFree r = true ->
  option_map groups (exec r t) = leftmostSuffix r t.
Proof. intros Hfree. now apply search_leftmostSuffix. Qed.

Lemma matchAt_inv input r s m :
  matchAt input r s = Some m ->
  List.length (groups m) = ngroups r /\
  Forall (fun g => substringOf g s) (groups m).
Proof.
  unfold matchAt. intros Hm.
  apply matchHere_inv in Hm as [s' [new [Hs [Hm [Hl Hf]]]]].
  injection Hm as <-. simpl. auto.
Qed.

Lemma search_inv input r s m :
  search input r s = Some m ->
  List.length (groups m) = ngroups r /\
  Forall (fun g => substringOf g s) (groups m).
Proof.
  induction s as [|c s IH]; simpl.
  - destruct (matchAt input r EmptyString) eqn:Hm; [|discriminate].
    intros Heq. injection Heq as <-. eapply matchAt_inv; eauto.
  - destruct (matchAt input r (String c s)) eqn:Hm.
    + intros Heq. injection Heq as <-. eapply matchAt_inv; eauto.
    + intros Hs. apply IH in Hs as [Hl Hf]. split; [exact Hl|].
      eapply Forall_impl; [|exact Hf].
      intros g Hg. eapply substringOf_suffix; [exact Hg | apply suffixOf_tail].
Qed.

(** A match has one capture per group, and each is a piece of the text. *)
Lemma exec_inv r s m :
  exec r s = Some m ->
  List.length (groups m) = ngroups r /\
  Forall (fun g => substringOf g s) (groups m).
Proof. apply search_inv. Qed.

End MatcherFacts.

(** ** The tokenizer ends, and ends well *)

Section TokenizerFacts.

Import JS RegExp.

Lemma isEmptyString_trimEnd (s : string) :
  isEmptyString (trimEnd s) = allWhiteSpace s.
Proof.
  induction s as [|c s IH]; simpl; [reflexivity|].
  rewrite <- IH.
  destruct (isWhiteSpace c), (isEmptyString (trimEnd s)); reflexivity.
Qed.

Lemma allWhiteSpace_trimStart_eq (s : string) :
  allWhiteSpace (trimStart s) = allWhiteSpace s.
Proof.
  induction s as [|c s IH]; simpl; [reflexivity|].
  destruct (isWhiteSpace c) eqn:Hc; simpl; [exact IH | now rewrite Hc].
Qed.

Lemma eqb_empty (s : string) : String.eqb s EmptyString = isEmptyString s.
Proof. destruct s; reflexivity. Qed.

Lemma isEmpty_Str (s : string) : isEmpty (Str s) = allWhiteSpace s.
Proof.
  unfold isEmpty, trim.
  rewrite eqb_empty, isEmptyString_trimEnd, allWhiteSpace_trimStart_eq.
  destruct s; reflexivity.
Qed.

Lemma allWhiteSpace_append (a b : string) :
  allWhiteSpace (a +++ b) = allWhiteSpace a && allWhiteSpace b.
Proof.
  induction a as [|c a IH]; simpl; [reflexivity|].
  now rewrite IH, andb_assoc.
Qed.

Lemma allWhiteSpace_join (a : list string) :
  allWhiteSpace (join EmptyString a) = forallb allWhiteSpace a.
Proof.
  induction a as [|x a IH]; [reflexivity|].
  destruct a as [|y a].
  - simpl. now rewrite andb_true_r.
  - change (join EmptyString (x :: y :: a))
      with (x +++ EmptyString +++ join EmptyString (y :: a)).
    rewrite allWhiteSpace_append.
    change (EmptyString +++ join EmptyString (y :: a))
      with (join EmptyString (y :: a)).
    rewrite IH. reflexivity.
Qed.

(** An array is empty for [isEmpty] exactly when all its lines are blank. *)
Lemma isEmpty_Arr (a : list string) : isEmpty (Arr a) = forallb allWhiteSpace a.
Proof.
  change (isEmpty (Arr a)) with (isEmpty (Str (join EmptyString a))).
  rewrite isEmpty_Str. apply allWhiteSpace_join.
Qed.

Lemma at_last (l : list string) (x : string) :
  at_ (l ++ [x]) (lastIndex (l ++ [x])) = Str x.
Proof.
  assert (Hi : lastIndex (l ++ [x]) = Some (List.length l)).
  { destruct l as [|y l]; simpl; [reflexivity|].
    rewrite length_app. simpl. f_equal. lia. }
  rewrite Hi. unfold at_.
  rewrite nth_error_app2 by lia. now rewrite Nat.sub_diag.
Qed.

(** On content with a line that is not blank, the first loop stops, and
    leaves such a line. *)
Lemma popLoop_normal (content : list string) :
  forall fuel,
    forallb allWhiteSpace content = false ->
    List.length content < fuel ->
    exists content',
      popLoop fuel content = Normal content' /\
      forallb allWhiteSpace content' = false /\
      List.length content' <= List.length content.
Proof.
  induction content as [|x l IH] using rev_ind; intros fuel Hne Hfuel.
  - discriminate.
  - destruct fuel as [|fuel]; [lia|]. simpl.
    rewrite at_last, isEmpty_Str.
    rewrite forallb_app in Hne. simpl in Hne. rewrite andb_true_r in Hne.
    rewrite length_app in *. simpl in *.
    destruct (allWhiteSpace x) eqn:Hx.
    + rewrite removelast_last. rewrite andb_true_r in Hne.
      destruct (IH fuel Hne) as [c' [Hp [Hc Hl]]]; [lia|].
      exists c'. repeat split; auto. lia.
    + exists (l ++ [x]). repeat split.
      * rewrite forallb_app. simpl. rewrite Hx. now rewrite andb_false_r.
      * rewrite length_app. simpl. lia.
Qed.

Lemma shiftLoop_normal (content : list string) :
  forall fuel,
    forallb allWhiteSpace content = false ->
    List.length content < fuel ->
    exists content', shiftLoop fuel content = Normal content'.
Proof.
  induction content as [|x l IH]; intros fuel Hne Hfuel.
  - discriminate.
  - destruct fuel as [|fuel]; [simpl in Hfuel; lia|].
    simpl. change (at_ (x :: l) (Some 0)) with (Str x).
    rewrite isEmpty_Str. simpl in Hne, Hfuel.
    destruct (allWhiteSpace x) eqn:Hx.
    + apply IH; [exact Hne | lia].
    + eauto.
Qed.

(** On content that [isEmpty] takes for empty, the first loop goes on
    for ever: [pop] on the empty array changes nothing. *)
Lemma popLoop_blank_diverges (content : list string) :
  forall fuel,
    forallb allWhiteSpace content = true -> popLoop fuel content = Diverge.
Proof.
  induction content as [|x l IH] using rev_ind; intros fuel Hb.
  - induction fuel as [|fuel IHf]; simpl; [reflexivity | exact IHf].
  - destruct fuel as [|fuel]; [reflexivity|]. simpl.
    rewrite at_last, isEmpty_Str.
    rewrite forallb_app in Hb. simpl in Hb. rewrite andb_true_r in Hb.
    apply andb_prop in Hb as [Hl Hx]. rewrite Hx, removelast_last.
    now apply IH.
Qed.

Lemma trimToken_normal (token : Token) :
  isEmpty (Arr (snd token)) = false ->
  exists token', trimToken token = Normal token'.
Proof.
  destruct token as [[lineNumber type] content].
  intros Hne. simpl in Hne. rewrite isEmpty_Arr in Hne.
  destruct (popLoop_normal content (S (List.length content)) Hne)
    as [c1 [Hp [Hc1 Hl1]]]; [lia|].
  destruct (shiftLoop_normal c1 (S (List.length content)) Hc1) as [c2 Hs]; [lia|].
  unfold trimToken. cbv zeta. rewrite Hp. cbn [bindC]. rewrite Hs. cbn [bindC].
  eauto.
Qed.

Lemma mapC_normal {A B} (f : A -> completion B) (l : list A) :
  Forall (fun a => exists b, f a = Normal b) l ->
  exists bs, mapC f l = Normal bs.
Proof.
  induction 1 as [|a l [b Hb] _ [bs Hbs]]; simpl.
  - eauto.
  - rewrite Hb. simpl. rewrite Hbs. simpl. eauto.
Qed.

(** A match of the flag pattern has its group. *)
Lemma flagLine_group (line : string) (m : MatchResult) :
  exec flagLine line = Some m -> exists inner, group m 1 = Some inner.
Proof.
  intros Hm. apply exec_inv in Hm as [Hl _].
  change (ngroups flagLine) with 1 in Hl.
  unfold group. destruct (groups m) as [|g gs]; [discriminate|].
  exists g. reflexivity.
Qed.

Lemma lineToken_normal (index : nat) (line : string) :
  exists type content, lineToken index line = Normal (index + 1, type, content).
Proof.
  unfold lineToken.
  destruct (startsWith line "---"); [eauto|].
  destruct (startsWith line "# "); [eauto|].
  destruct (startsWith line "## "); [eauto|].
  destruct (startsWith line "### "); [eauto|].
  destruct (startsWith line "-"); [eauto|].
  destruct (startsWith line "*"); [eauto|].
  destruct (exec linkLine line) as [ml|]; [eauto|].
  destruct (exec flagLine line) as [m|] eqn:Hm; [|eauto].
  destruct (flagLine_group line m Hm) as [inner ->]. eauto.
Qed.

Lemma mapIndexed_normal (lines : list string) :
  forall index, exists tokens, mapIndexed lineToken index lines = Normal tokens.
Proof.
  induction lines as [|l lines IH]; intros index; simpl.
  - eauto.
  - destruct (lineToken_normal index l) as [type [content ->]]. simpl.
    destruct (IH (S index)) as [ts ->]. simpl. eauto.
Qed.

(** [forEach] reads [tokens[0]] from the second line on, when a token
    is there. *)
Lemma mergeLine_normal tokens index line :
  (index <> 0 -> tokens <> []) ->
  exists tokens', mergeLine tokens index line = Normal tokens' /\ tokens' <> [].
Proof.
  intros Hinv. destruct line as [[lineNumber type] content]. unfold mergeLine.
  destruct index as [|index].
  - eexists. split; [reflexivity | discriminate].
  - destruct tokens as [|[[prevLine prevType] prevContent] rest].
    + exfalso. now apply Hinv.
    + destruct type, prevType;
        (eexists; split; [reflexivity | discriminate]).
Qed.

Lemma forEach_normal (lines : list LineToken) :
  forall index tokens,
    (index <> 0 -> tokens <> []) ->
    exists tokens', forEach lines index tokens = Normal tokens'.
Proof.
  induction lines as [|line lines IH]; intros index tokens Hinv; simpl.
  - eauto.
  - destruct (mergeLine_normal tokens index line Hinv) as [tokens' [-> Hne]].
    simpl. apply IH. intros _. exact Hne.
Qed.

Lemma tokenize_normal (markdown : string) :
  exists tokens, tokenize markdown = Normal tokens.
Proof.
  unfold tokenize.
  destruct (mapIndexed_normal (split LF (trim markdown)) 0) as [lines ->]. simpl.
  destruct (forEach_normal lines 0 []) as [tokens ->]; [congruence|]. simpl.
  destruct (mapC_normal trimToken
              (filter (fun token => negb (isEmpty (Arr (snd token)))) tokens))
    as [kept ->].
  - apply Forall_forall. intros token Hin.
    apply filter_In in Hin as [_ Hne].
    apply trimToken_normal. now apply negb_true_iff in Hne.
  - simpl. eauto.
Qed.

Lemma tokenize_blank (markdown : string) :
  allWhiteSpace markdown = true -> tokenize markdown = Normal [].
Proof.
  intros Hb. unfold tokenize. rewrite allWhiteSpace_trim by exact Hb.
  reflexivity.
Qed.

End TokenizerFacts.

(** ** The token consumer ends *)

Section ParserFacts.

Import JS RegExp.

Context {R : Type} `{ReleaseLike R}.
Variable opts : Options R.

Lemma ret_calm n {A} (a : A) : calm n (ret a).
Proof. intros q _. simpl. split; [discriminate | lia]. Qed.

Lemma throw_calm n {A} (e : JsError) : calm n (@throw A e).
Proof. intros q _. simpl. split; [discriminate | lia]. Qed.

Lemma bind_calm n {A B} (m : M A) (k : A -> M B) :
  calm n m -> (forall a, calm n (k a)) -> calm n (bind m k).
Proof.
  intros Hm Hk q Hq. unfold bind.
  destruct (Hm q Hq) as [Hd Hl].
  destruct (m q) as [[a| e |] q'] eqn:E; simpl in *.
  - destruct (Hk a q') as [Hd' Hl']; [lia|]. split; [exact Hd' | lia].
  - split; [discriminate | exact Hl].
  - congruence.
Qed.

Lemma getContent_taking type : taking (getContent type false).
Proof.
  intros q. unfold getContent.
  destruct q as [|[[lineNumber type'] content] rest]; simpl.
  - repeat split; try discriminate; try lia.
    intros x Hx. injection Hx as <-. discriminate.
  - destruct (TokenType_eqb type' type); simpl.
    + repeat split; try discriminate; lia.
    + repeat split; try discriminate; try lia.
      intros x Hx. injection Hx as <-. discriminate.
Qed.

Lemma getContent_calm n type required : calm n (getContent type required).
Proof.
  intros q _. unfold getContent.
  destruct q as [|[[lineNumber type'] content] rest]; simpl.
  - destruct required; simpl; split; try discriminate; lia.
  - destruct (TokenType_eqb type' type), required; simpl;
      split; try discriminate; lia.
Qed.

Lemma truthy_toLowerCase (s : string) : truthy (toLowerCase s) = truthy s.
Proof. destruct s; reflexivity. Qed.

Lemma lowered_taking type :
  taking (x <~ getContent type false ;; ret (toLowerCase x)).
Proof.
  intros q. destruct (getContent_taking type q) as [Hd [Hl Ht]].
  unfold bind. destruct (getContent type false q) as [[a| e |] q'];
    simpl in *.
  - repeat split; try discriminate; try exact Hl.
    intros x Hx. injection Hx as <-. rewrite truthy_toLowerCase.
    now apply Ht.
  - repeat split; try discriminate; exact Hl.
  - congruence.
Qed.

(** A loop whose condition takes a token at each turn ends within the
    length of the queue. *)
Lemma while_calm {St} (cond : M string) (body : string -> St -> M St) fuel :
  taking cond ->
  (forall x s, calm fuel (body x s)) ->
  forall limit s tokens,
    List.length tokens < limit ->
    List.length tokens < fuel ->
    fst (while limit cond body s tokens) <> Diverge /\
    List.length (snd (while limit cond body s tokens)) <= List.length tokens.
Proof.
  intros Hcond Hbody.
  induction limit as [|limit IH]; intros s q Hlim Hfuel; [lia|].
  cbn [while]. unfold bind.
  destruct (Hcond q) as [Hd [Hl Ht]].
  destruct (cond q) as [[x| e |] q1]; cbn [fst snd] in *.
  - destruct (truthy x) eqn:Hx.
    + specialize (Ht x eq_refl Hx).
      destruct (Hbody x s q1) as [Hd2 Hl2]; [lia|].
      destruct (body x s q1) as [[s'| e |] q2]; cbn [fst snd] in *.
      * destruct (IH s' q2) as [Hd3 Hl3]; try lia. split; [exact Hd3 | lia].
      * split; [discriminate | lia].
      * congruence.
    + unfold ret. cbn [fst snd]. split; [discriminate | lia].
  - split; [discriminate | lia].
  - congruence.
Qed.

Lemma while_fuel_calm {St} (cond : M string) (body : string -> St -> M St) fuel s :
  taking cond -> (forall x s, calm fuel (body x s)) ->
  calm fuel (while fuel cond body s).
Proof. intros Hc Hb q Hq. now apply (while_calm cond body fuel Hc Hb). Qed.

Lemma releaseArguments_ends (release : string) :
  releaseArguments release <> Diverge.
Proof.
  unfold releaseArguments.
  destruct (exec datedRelease release); [discriminate|].
  destruct (includes release "unreleased"); [|discriminate].
  destruct (exec unreleasedRelease release); discriminate.
Qed.

Lemma lift_calm n {A} (c : completion A) : c <> Diverge -> calm n (lift c).
Proof. intros Hc q _. simpl. split; [exact Hc | lia]. Qed.

Lemma changesLoop_calm fuel type (release : R) : calm fuel (changesLoop fuel type release).
Proof.
  apply while_fuel_calm; [apply getContent_taking|].
  intros. apply ret_calm.
Qed.

Lemma typesLoop_calm fuel (release : R) : calm fuel (typesLoop fuel release).
Proof.
  apply while_fuel_calm; [apply lowered_taking|].
  intros. apply changesLoop_calm.
Qed.

Lemma releasesLoop_calm fuel changelog : calm fuel (releasesLoop opts fuel changelog).
Proof.
  apply while_fuel_calm; [apply lowered_taking|].
  intros release cl.
  apply bind_calm; [apply lift_calm, releaseArguments_ends|]. intros args.
  apply bind_calm; [apply getContent_calm|]. intros description.
  apply bind_calm; [apply typesLoop_calm|]. intros r.
  apply ret_calm.
Qed.

Lemma linksLoop_calm fuel (changelog : Changelog.t R) : calm fuel (linksLoop fuel changelog).
Proof.
  apply while_fuel_calm; [apply getContent_taking|].
  intros l cl. destruct (urlUnset cl); [|apply ret_calm].
  destruct (exec compareLink l); apply ret_calm.
Qed.

Lemma headerPart_calm n : calm n (@headerPart R).
Proof.
  unfold headerPart.
  apply bind_calm; [apply getContent_calm|]. intros f.
  apply bind_calm; [apply getContent_calm|]. intros t.
  apply bind_calm; [apply getContent_calm|]. intros d.
  apply ret_calm.
Qed.

Lemma beforeFooter_ends tokens :
  fst (beforeFooter opts tokens) <> Diverge /\
  List.length (snd (beforeFooter opts tokens)) <= List.length tokens.
Proof.
  unfold beforeFooter.
  apply (bind_calm (S (List.length tokens))); [apply headerPart_calm| |lia].
  intros cl. apply bind_calm; [apply releasesLoop_calm|].
  intros cl'. apply linksLoop_calm.
Qed.

Lemma footerPart_calm n (changelog : Changelog.t R) : calm n (footerPart changelog).
Proof.
  unfold footerPart.
  apply bind_calm; [apply getContent_calm|]. intros rule.
  destruct (truthy rule); [|apply ret_calm].
  apply bind_calm; [apply getContent_calm|]. intros f. apply ret_calm.
Qed.

Lemma endPart_calm n (changelog : Changelog.t R) : calm n (endPart changelog).
Proof.
  intros q _. unfold endPart. destruct q; simpl; split; try discriminate; lia.
Qed.

(** [processTokens] ends on every queue: it returns or it throws. *)
Lemma processTokens_ends tokens : fst (processTokens opts tokens) <> Diverge.
Proof.
  unfold processTokens, bind at 1.
  destruct (beforeFooter_ends tokens) as [Hd Hl].
  destruct (beforeFooter opts tokens) as [[cl| e |] q]; simpl in *;
    [|discriminate|congruence].
  apply (bind_calm (S (List.length q))); [apply footerPart_calm| |lia].
  intros cl'. apply endPart_calm.
Qed.

(** [parser] ends on every text: it returns or it throws. *)
Lemma parser_ends markdown : parser opts markdown <> Diverge.
Proof.
  unfold parser. destruct (tokenize_normal markdown) as [tokens ->]. simpl.
  pose proof (processTokens_ends tokens) as Hd.
  destruct (processTokens opts tokens) as [[cl| e |] q]; simpl in *.
  - discriminate.
  - destruct q as [|[[l t] c] q]; discriminate.
  - congruence.
Qed.

(** A queue whose front token, after a flag token if there is one, is
    not a title makes [processTokens] throw the error of the missing token,
    with the line of that front token. *)
Lemma missing_title_reported (optionalFlag : list Token)
    (lineNumber : nat) (type : TokenType) (content : list string)
    (rest : list Token) :
  type <> h1 ->
  (optionalFlag = [] /\ type <> flag) \/
  (exists l c, optionalFlag = [(l, flag, c)]) ->
  processTokens opts (optionalFlag ++ (lineNumber, type, content) :: rest)
  = (Throw (Error ("Required token missing in: " +++ dq
                     +++ numberToString lineNumber +++ dq)),
     (lineNumber, type, content) :: rest).
Proof.
  intros Hh1 [[-> Hflag] | [l [c ->]]];
    unfold processTokens, beforeFooter, headerPart, bind, getContent;
    destruct type; try contradiction; reflexivity.
Qed.

End ParserFacts.

(** ** The release header *)

Section HeaderFacts.

Import JS RegExp.

Lemma group_first (m : MatchResult) (g : string) (gs : list string) :
  groups m = g :: gs -> group m 1 = Some g.
Proof. unfold group. now intros ->. Qed.

Lemma group_second (m : MatchResult) (g1 g2 : string) (gs : list string) :
  groups m = g1 :: g2 :: gs -> group m 2 = Some g2.
Proof. unfold group. now intros ->. Qed.

Lemma group_substring (m : MatchResult) (i : nat) (g s : string) :
  Forall (fun g => substringOf g s) (groups m) ->
  group m i = Some g -> substringOf g s.
Proof.
  intros Hf Hg. unfold group in Hg. apply nth_error_In in Hg.
  rewrite Forall_forall in Hf. now apply Hf.
Qed.

(** A match of the dated pattern has the label and the date. *)
Lemma datedRelease_groups (release : string) (m : MatchResult) :
  exec datedRelease release = Some m ->
  exists label date, groups m = [label; date].
Proof.
  intros Hm. apply exec_inv in Hm as [Hl _].
  change (ngroups datedRelease) with 2 in Hl.
  destruct (groups m) as [|g1 [|g2 [|g3 gs]]]; try discriminate. eauto.
Qed.

Lemma unreleasedRelease_groups (release : string) (m : MatchResult) :
  exec unreleasedRelease release = Some m ->
  exists label, groups m = [label].
Proof.
  intros Hm. apply exec_inv in Hm as [Hl _].
  change (ngroups unreleasedRelease) with 1 in Hl.
  destruct (groups m) as [|g1 [|g2 gs]]; try discriminate. eauto.
Qed.

(** The label the release is created with is a piece of the text
    [releaseArguments] is given. *)
Lemma releaseArguments_label (release label : string) (date : option string) :
  releaseArguments release = Normal (Some label, date) ->
  substringOf label release.
Proof.
  unfold releaseArguments.
  destruct (exec datedRelease release) as [m|] eqn:Hm.
  - intros Heq. injection Heq as Hg _.
    apply exec_inv in Hm as [_ Hf]. eapply group_substring; eauto.
  - destruct (includes release "unreleased"); [|discriminate].
    destruct (exec unreleasedRelease release) as [m|] eqn:Hu; [|discriminate].
    intros Heq. injection Heq as Hg _.
    apply exec_inv in Hu as [_ Hf]. eapply group_substring; eauto.
Qed.

Lemma repeatGreedy_done {X} cls s (k : string -> option X) :
  repeatGreedy cls 0 (Some 0) s k = k s.
Proof. destruct s; simpl; [reflexivity | now rewrite andb_false_r]. Qed.

Lemma repeatGreedy_once {X} cls s (k : string -> option X) :
  repeatGreedy cls 1 (Some 1) s k
  = match s with
    | String c s' => if cls c then k s' else None
    | EmptyString => None
    end.
Proof.
  destruct s as [|c s]; simpl; [reflexivity|].
  destruct (cls c); simpl; [|reflexivity].
  rewrite repeatGreedy_done. destruct (k s); reflexivity.
Qed.

Lemma replace_twoBlanks (content : string) :
  replace twoBlanks EmptyString content = dropTwoBlanks content.
Proof.
  unfold replace.
  change twoBlanks
    with (Seq AssertStart
            (cat [Times isWhiteSpace 1 1; Times isWhiteSpace 1 1])).
  rewrite exec_start. unfold matchAt, Times. cbn [matchHere cat].
  rewrite Nat.eqb_refl, repeatGreedy_once.
  destruct content as [|a [|b rest]]; [reflexivity| |].
  - destruct (isWhiteSpace a); reflexivity.
  - rewrite repeatGreedy_once. unfold dropTwoBlanks.
    destruct (isWhiteSpace a), (isWhiteSpace b); try reflexivity.
    cbn [index after andb]. rewrite Nat.sub_diag. reflexivity.
Qed.

End HeaderFacts.

(** ** A changelog of a title and one release header *)

Section OneRelease.

Import JS RegExp.

Context {R : Type} `{ReleaseLike R}.
Variable opts : Options R.

(** The arguments the release is created with are those that
    [releaseArguments] finds in the lower-cased text of the header. *)
Lemma processTokens_one_release (l1 l2 : nat) (title header : string) :
  truthy header = true ->
  processTokens opts [(l1, h1, [title]); (l2, h2, [header])]
  = match releaseArguments (toLowerCase header) with
    | Normal args =>
        (Normal
           (Changelog.mk (Some EmptyString) title (Some EmptyString)
              [setDescription EmptyString
                 (releaseCreator opts (fst args) (snd args) None)]
              None None), [])
    | Throw e => (Throw e, [])
    | Diverge => (Diverge, [])
    end.
Proof.
  intros Hh.
  assert (Ht : truthy (toLowerCase header) = true)
    by now rewrite truthy_toLowerCase.
  unfold processTokens, beforeFooter, headerPart, releasesLoop, bind, getContent.
  cbn [List.length while TokenType_eqb negb join ret lift bind getContent].
  unfold bind, getContent. cbn [TokenType_eqb negb join ret].
  rewrite Ht.
  destruct (releaseArguments (toLowerCase header)) as [args| e |]; reflexivity.
Qed.

End OneRelease.

(** ** The claims of the specification *)

Section Claims.

Import JS RegExp.

(** C1 (the code differs).  On the round-trip example the parse returns a
    changelog titled [Title] with one release and the two entries under
    [added], in order; the release is created with the date [2024-01-15]
    and with the label [1.0.0] followed by a blank, not [1.0.0]: the
    greedy class of group 1 takes the blank before the dash.  This holds
    for every [releaseCreator], and so for the default one. *)
Theorem C1_round_trip_label_keeps_blank :
  (forall (R : Type) (RL : ReleaseLike R) (opts : Options R),
      parser opts changelogExample
      = Normal
          (Changelog.mk (Some EmptyString) "Title" (Some EmptyString)
             [addChange "added" "Thing two"
                (addChange "added" "Thing one"
                   (setDescription EmptyString
                      (releaseCreator opts (Some "1.0.0 ") (Some "2024-01-15") None)))]
             None None)) /\
  parser defaultOptions changelogExample
  = Normal
      (Changelog.mk (Some EmptyString) "Title" (Some EmptyString)
         [Release.mk (Some "1.0.0 ") (Some "2024-01-15") (Some EmptyString)
            [("added", ["Thing one"; "Thing two"])]]
         None None).
Proof. split; [intros R RL opts|]; vm_compute; reflexivity. Qed.

(** C2, as the specification has it, fails: with a title and a rule and
    nothing after it, the rule is reached at the footer position and
    taken, no paragraph follows, and the parse returns a document. *)
Lemma C2_rule_without_paragraph_returns :
  beforeFooter defaultOptions [(1, h1, ["T"]); (3, hr, ["-"])]
  = (Normal (Changelog.mk (Some EmptyString) "T" (Some EmptyString) [] None None),
     [(3, hr, ["-"])]) /\
  processTokens defaultOptions [(1, h1, ["T"]); (3, hr, ["-"])]
  = (Normal (Changelog.mk (Some EmptyString) "T" (Some EmptyString) [] None
               (Some EmptyString)), []) /\
  parser defaultOptions (text ["# T"; EmptyString; "---"])
  = Normal (Changelog.mk (Some EmptyString) "T" (Some EmptyString) [] None
              (Some EmptyString)).
Proof. repeat split; vm_compute; reflexivity. Qed.

(** C2, amended.  When a rule token whose content is not empty is at the
    front of the queue at the footer position, it is taken, and the footer
    is the content of the paragraph token that follows it, or the empty
    string when none follows: the paragraph is not required.  Then only
    tokens left over make the parse fail. *)
Theorem C2_footer_paragraph_optional
    (R : Type) (RL : ReleaseLike R) (opts : Options R)
    (tokens : list Token) (changelog : Changelog.t R)
    (lineNumber : nat) (content : list string) (rest : list Token) :
  beforeFooter opts tokens = (Normal changelog, (lineNumber, hr, content) :: rest) ->
  truthy (join nl content) = true ->
  processTokens opts tokens
  = match rest with
    | (_, para, footer) :: rest' =>
        endPart (Changelog.setFooter (join nl footer) changelog) rest'
    | _ => endPart (Changelog.setFooter EmptyString changelog) rest
    end.
Proof.
  intros Hbefore Hrule.
  unfold processTokens, bind at 1. rewrite Hbefore.
  unfold footerPart, bind, getContent. cbn [TokenType_eqb negb].
  rewrite Hrule.
  destruct rest as [|[[l t] c] rest']; [reflexivity|].
  destruct t; reflexivity.
Qed.

Lemma C2_footer_paragraph_optional_witness :
  processTokens defaultOptions [(1, h1, ["T"]); (3, hr, ["-"])]
  = endPart (Changelog.setFooter EmptyString
               (Changelog.mk (Some EmptyString) "T" (Some EmptyString) [] None None))
      [].
Proof.
  apply (C2_footer_paragraph_optional Release.t _ defaultOptions
           [(1, h1, ["T"]); (3, hr, ["-"])]
           (Changelog.mk (Some EmptyString) "T" (Some EmptyString) [] None None)
           3 ["-"] []).
  - vm_compute. reflexivity.
  - reflexivity.
Defined.

(** C3 (the code differs).  On the empty text the queue is empty, and
    the demand for the title faults on [tokens[0][0]] while it builds the
    message of the missing token: what is thrown, by [processTokens] and
    then by the handler of [parser], is a [TypeError], not the error of
    the missing token. *)
Theorem C3_empty_stream_faults :
  forall (R : Type) (RL : ReleaseLike R) (opts : Options R),
    tokenize EmptyString = Normal [] /\
    processTokens opts []
    = (Throw (TypeError "Cannot read properties of undefined (reading '0')"), []) /\
    parser opts EmptyString
    = Throw (TypeError "Cannot read properties of undefined (reading '0')").
Proof. intros R RL opts. repeat split; vm_compute; reflexivity. Qed.

(** C4.  When [processTokens] throws and leaves a token at the front of
    the queue, the error of [parser] carries the line number of that
    token; when it throws and leaves the queue empty, the handler faults
    on [tokens[0][0]] and the first error is lost.  That is what happens
    on the empty text, and on a text whose last token is a release header
    that is refused. *)
Theorem C4_error_reports_front_line :
  forall (R : Type) (RL : ReleaseLike R) (opts : Options R),
    (forall markdown tokens error lineNumber type content rest,
        tokenize markdown = Normal tokens ->
        processTokens opts tokens
        = (Throw error, (lineNumber, type, content) :: rest) ->
        parser opts markdown
        = Throw (Error ("Parse error in the line " +++ numberToString lineNumber
                          +++ ": " +++ message error))) /\
    (forall markdown tokens error,
        tokenize markdown = Normal tokens ->
        processTokens opts tokens = (Throw error, []) ->
        parser opts markdown = Throw (undefinedRead "0")) /\
    (exists error,
        tokenize EmptyString = Normal [] /\
        processTokens opts [] = (Throw error, []) /\
        parser opts EmptyString = Throw (undefinedRead "0")) /\
    (tokenize (text ["# T"; "## bad"]) = Normal [(1, h1, ["T"]); (2, h2, ["bad"])] /\
     processTokens opts [(1, h1, ["T"]); (2, h2, ["bad"])]
     = (Throw (Error "Syntax error in the release title"), []) /\
     parser opts (text ["# T"; "## bad"]) = Throw (undefinedRead "0")).
Proof.
  intros R RL opts. split; [|split; [|split]].
  - intros markdown tokens error lineNumber type content rest Htok Hproc.
    unfold parser. rewrite Htok. cbn [bindC]. rewrite Hproc. reflexivity.
  - intros markdown tokens error Htok Hproc.
    unfold parser. rewrite Htok. cbn [bindC]. rewrite Hproc. reflexivity.
  - exists (undefinedRead "0"). repeat split; vm_compute; reflexivity.
  - repeat split; vm_compute; reflexivity.
Qed.

(** The header at line 2 is refused after it was taken, and the line
    reported is that of the list item then at the front, line 3. *)
Lemma C4_error_reports_front_line_witness :
  parser defaultOptions (text ["# T"; "## bad"; "- x"])
  = Throw (Error ("Parse error in the line " +++ numberToString 3
                    +++ ": " +++ message (Error "Syntax error in the release title"))).
Proof.
  apply (proj1 (C4_error_reports_front_line Release.t _ defaultOptions)
           (text ["# T"; "## bad"; "- x"])
           [(1, h1, ["T"]); (2, h2, ["bad"]); (3, li, ["x"])]
           (Error "Syntax error in the release title") 3 li ["x"] []).
  - vm_compute. reflexivity.
  - vm_compute. reflexivity.
Defined.

(** C5, as the specification has it, fails: this header does not match
    the pattern anchored at its start and does not contain [unreleased],
    yet the dated case is recognized, from the third character on. *)
Lemma C5_header_matched_past_its_start :
  exec claimedDatedRelease "a]b - 2024-01-15" = None /\
  includes "a]b - 2024-01-15" "unreleased" = false /\
  releaseArguments "a]b - 2024-01-15" = Normal (Some "b ", Some "2024-01-15") /\
  releaseArguments "a]b - 2024-01-15"
  <> Throw (Error "Syntax error in the release title").
Proof. repeat split; try (vm_compute; reflexivity). discriminate. Qed.

(** C5, amended.  The pattern of the source has no [^]: the dated case
    is recognized exactly when a suffix of the header matches the pattern
    from its start to the end; the longest such suffix gives the label
    (group 1) and the date (group 2).  With no such suffix, a header that
    does not contain [unreleased] fails with the error of the release
    title. *)
Theorem C5_dated_release_end_anchored (release : string) :
  match leftmostSuffix datedRelease release with
  | Some g =>
      exists label date,
        g = [label; date] /\
        releaseArguments release = Normal (Some label, Some date)
  | None =>
      (forall label date, releaseArguments release <> Normal (label, Some date)) /\
      (includes release "unreleased" = false ->
       releaseArguments release = Throw (Error "Syntax error in the release title"))
  end.
Proof.
  rewrite <- exec_leftmostSuffix by reflexivity.
  unfold releaseArguments.
  destruct (exec datedRelease release) as [m|] eqn:Hm; cbn [option_map].
  - destruct (datedRelease_groups release m Hm) as [label [date Hg]].
    exists label, date. split; [exact Hg|].
    now rewrite (group_first m label [date] Hg), (group_second m label date [] Hg).
  - split; [|now intros ->].
    intros label date.
    destruct (includes release "unreleased"); [|discriminate].
    destruct (exec unreleasedRelease release); discriminate.
Qed.

Lemma C5_dated_release_end_anchored_witness :
  releaseArguments "not a valid header"
  = Throw (Error "Syntax error in the release title").
Proof.
  exact (proj2 (C5_dated_release_end_anchored "not a valid header") eq_refl).
Defined.

(** C6, as the specification has it, fails: this header does not match
    the dated pattern, contains [unreleased] and does not match the
    labelled pattern anchored at its start, yet the release is created with
    a label, found from the third character on. *)
Lemma C6_label_found_past_the_start :
  exec datedRelease "a]b - unreleased" = None /\
  includes "a]b - unreleased" "unreleased" = true /\
  exec claimedUnreleasedRelease "a]b - unreleased" = None /\
  releaseArguments "a]b - unreleased" = Normal (Some "b ", None) /\
  releaseArguments "a]b - unreleased" <> Normal (None, None).
Proof. repeat split; try (vm_compute; reflexivity). discriminate. Qed.

(** C6, amended.  For a header that is not a dated one and contains
    [unreleased]: when a suffix of the header matches the labelled pattern
    from its start to the end, the release is created with group 1 of the
    longest such suffix as label and no date; otherwise with no label and
    no date.  So the changelog with the header [Unreleased] has one
    release, created with no arguments. *)
Theorem C6_unreleased_header :
  (forall release,
      leftmostSuffix datedRelease release = None ->
      includes release "unreleased" = true ->
      match leftmostSuffix unreleasedRelease release with
      | Some g =>
          exists label,
            g = [label] /\ releaseArguments release = Normal (Some label, None)
      | None => releaseArguments release = Normal (None, None)
      end) /\
  (forall (R : Type) (RL : ReleaseLike R) (opts : Options R),
      parser opts (text ["# Title"; EmptyString; "## Unreleased"; EmptyString])
      = Normal
          (Changelog.mk (Some EmptyString) "Title" (Some EmptyString)
             [setDescription EmptyString (releaseCreator opts None None None)]
             None None)).
Proof.
  split.
  - intros release Hdated Hincl.
    rewrite <- exec_leftmostSuffix in Hdated |- * by reflexivity.
    unfold releaseArguments.
    destruct (exec datedRelease release); [discriminate|].
    rewrite Hincl.
    destruct (exec unreleasedRelease release) as [m|] eqn:Hm; cbn [option_map].
    + destruct (unreleasedRelease_groups release m Hm) as [label Hg].
      exists label. split; [exact Hg|].
      now rewrite (group_first m label [] Hg).
    + reflexivity.
  - intros R RL opts. vm_compute. reflexivity.
Qed.

Lemma C6_unreleased_header_witness :
  releaseArguments "unreleased" = Normal (None, None).
Proof.
  exact (proj1 C6_unreleased_header "unreleased" eq_refl eq_refl).
Defined.

(** C7, as the specification has it, fails: a continuation line with one
    leading space is appended as it is, where stripping up to two leading
    spaces would take the space off. *)
Lemma C7_single_leading_space_kept :
  tokenize (text ["- a"; " b"]) = Normal [(1, li, ["a"; " b"])] /\
  stripUpToTwoSpaces " b" = "b" /\
  tokenize (text ["- a"; " b"]) <> Normal [(1, li, ["a"; stripUpToTwoSpaces " b"])].
Proof. repeat split; try (vm_compute; reflexivity). discriminate. Qed.

(** C7, amended.  A paragraph line that follows a list item token is
    appended to the content of that token, without its first two
    characters when both are white space and as it is otherwise.  So a
    list item followed by a line indented by two spaces gives one token
    with both lines, the second without the two spaces. *)
Theorem C7_continuation_line_appended :
  (forall (index lineNumber prevLine : nat) (content : string)
          (prevContent : list string) (rest : list Token),
      mergeLine ((prevLine, li, prevContent) :: rest) (S index)
        (lineNumber, para, content)
      = Normal ((prevLine, li, prevContent ++ [dropTwoBlanks content]) :: rest)) /\
  tokenize (text ["- a"; "  b"]) = Normal [(1, li, ["a"; "b"])].
Proof.
  split.
  - intros. unfold mergeLine. now rewrite replace_twoBlanks.
  - vm_compute. reflexivity.
Qed.

(** C8.  [tokenize] returns a token sequence on every text: no fault and
    no loop without end, the two trimming loops ending on every token that
    the filter before them keeps; and on a text of white space only, the
    empty text included, the sequence is empty. *)
Theorem C8_tokenize_total :
  (forall markdown, exists tokens, tokenize markdown = Normal tokens) /\
  (forall token,
      isEmpty (Arr (snd token)) = false ->
      exists token', trimToken token = Normal token') /\
  (forall markdown, allWhiteSpace markdown = true -> tokenize markdown = Normal []).
Proof.
  repeat split.
  - apply tokenize_normal.
  - apply trimToken_normal.
  - apply tokenize_blank.
Qed.

Lemma C8_tokenize_total_witness :
  tokenize (text ["  "; " "]) = Normal [].
Proof.
  exact (proj2 (proj2 C8_tokenize_total) (text ["  "; " "]) eq_refl).
Defined.

(** C9, as the specification has it, fails: the line [#] is not a
    heading of level 1 with empty content. *)
Lemma C9_bare_marker_not_heading :
  lineToken 0 "#" = Normal (1, para, "#") /\
  lineToken 0 "#" <> Normal (1, h1, EmptyString) /\
  tokenize "#" = Normal [(1, para, ["#"])].
Proof. repeat split; try (vm_compute; reflexivity). discriminate. Qed.

(** C9, amended.  A line that is only [#], [##] or [###] is a paragraph
    whose content is the line: the heading patterns ask for a space after
    the marker.  With that space, and nothing but white space after it,
    the line is a heading of the level of the marker with empty
    content. *)
Theorem C9_bare_marker_is_paragraph (index : nat) :
  lineToken index "#" = Normal (index + 1, para, "#") /\
  lineToken index "##" = Normal (index + 1, para, "##") /\
  lineToken index "###" = Normal (index + 1, para, "###") /\
  (forall blanks,
      allWhiteSpace blanks = true ->
      lineToken index ("# " +++ blanks) = Normal (index + 1, h1, EmptyString) /\
      lineToken index ("## " +++ blanks) = Normal (index + 1, h2, EmptyString) /\
      lineToken index ("### " +++ blanks) = Normal (index + 1, h3, EmptyString)).
Proof.
  repeat split; try reflexivity; unfold lineToken.
  - change (startsWith ("# " +++ blanks) "---") with false.
    change (startsWith ("# " +++ blanks) "# ") with true. cbv iota.
    change (substr 1 ("# " +++ blanks)) with (String " " blanks).
    now rewrite allWhiteSpace_trim.
  - change (startsWith ("## " +++ blanks) "---") with false.
    change (startsWith ("## " +++ blanks) "# ") with false.
    change (startsWith ("## " +++ blanks) "## ") with true. cbv iota.
    change (substr 2 ("## " +++ blanks)) with (String " " blanks).
    now rewrite allWhiteSpace_trim.
  - change (startsWith ("### " +++ blanks) "---") with false.
    change (startsWith ("### " +++ blanks) "# ") with false.
    change (startsWith ("### " +++ blanks) "## ") with false.
    change (startsWith ("### " +++ blanks) "### ") with true. cbv iota.
    change (substr 3 ("### " +++ blanks)) with (String " " blanks).
    now rewrite allWhiteSpace_trim.
Qed.

Lemma C9_bare_marker_is_paragraph_witness :
  lineToken 4 "## " = Normal (4 + 1, h2, EmptyString).
Proof.
  exact (proj1 (proj2 (proj2 (proj2 (proj2 (C9_bare_marker_is_paragraph 4)))
                         EmptyString eq_refl))).
Defined.

End Claims.

(** * Further properties of the code *)

(** ** Trimming the content of a token (parser.ts, lines 190-202) *)

Section TrimmingFacts.

Import JS.

Lemma dropLeadingBlank_split (content : list string) :
  exists front,
    content = front ++ dropLeadingBlank content /\
    forallb allWhiteSpace front = true.
Proof.
  induction content as [|x l [front [Heq Hb]]]; simpl.
  - exists []. auto.
  - destruct (allWhiteSpace x) eqn:Hx.
    + exists (x :: front). simpl. rewrite Hx, Hb. split; [now f_equal | reflexivity].
    + exists []. auto.
Qed.

Lemma dropLeadingBlank_head (content : list string) :
  forallb allWhiteSpace content = false ->
  exists x rest, dropLeadingBlank content = x :: rest /\ allWhiteSpace x = false.
Proof.
  induction content as [|x l IH]; simpl; [discriminate|].
  destruct (allWhiteSpace x) eqn:Hx; simpl; [exact IH|]. eauto.
Qed.

Lemma dropTrailingBlank_snoc (l : list string) (x : string) :
  dropTrailingBlank (l ++ [x])
  = if allWhiteSpace x then dropTrailingBlank l else l ++ [x].
Proof.
  unfold dropTrailingBlank. rewrite rev_app_distr. simpl.
  destruct (allWhiteSpace x); [reflexivity|].
  simpl. now rewrite rev_involutive.
Qed.

Lemma dropTrailingBlank_split (content : list string) :
  exists back,
    content = dropTrailingBlank content ++ back /\
    forallb allWhiteSpace back = true.
Proof.
  unfold dropTrailingBlank.
  destruct (dropLeadingBlank_split (List.rev content)) as [front [Heq Hb]].
  exists (List.rev front). split.
  - rewrite <- rev_app_distr, <- Heq. now rewrite rev_involutive.
  - rewrite forallb_forall in *. intros y Hy. apply Hb. now apply in_rev.
Qed.

Lemma dropTrailingBlank_last (content : list string) :
  forallb allWhiteSpace content = false ->
  exists front x,
    dropTrailingBlank content = front ++ [x] /\ allWhiteSpace x = false.
Proof.
  intros Hne. unfold dropTrailingBlank.
  destruct (dropLeadingBlank_head (List.rev content)) as [x [rest [Heq Hx]]].
  - destruct (forallb allWhiteSpace (List.rev content)) eqn:Hr; [|reflexivity].
    rewrite <- Hne. symmetry. apply forallb_forall. intros y Hy.
    rewrite forallb_forall in Hr. apply Hr. now apply in_rev in Hy.
  - rewrite Heq. simpl. eauto.
Qed.

(** The first loop leaves the lines up to the last one that is not
    blank. *)
Lemma popLoop_result (content : list string) :
  forall fuel,
    forallb allWhiteSpace content = false ->
    List.length content < fuel ->
    popLoop fuel content = Normal (dropTrailingBlank content).
Proof.
  induction content as [|x l IH] using rev_ind; intros fuel Hne Hfuel.
  - discriminate.
  - destruct fuel as [|fuel]; [lia|]. simpl.
    rewrite at_last, isEmpty_Str, dropTrailingBlank_snoc.
    rewrite forallb_app in Hne. simpl in Hne. rewrite andb_true_r in Hne.
    rewrite length_app in Hfuel. simpl in Hfuel.
    destruct (allWhiteSpace x) eqn:Hx; [|reflexivity].
    rewrite removelast_last. rewrite andb_true_r in Hne.
    apply IH; [exact Hne | lia].
Qed.

(** The second loop leaves the lines from the first one that is not
    blank. *)
Lemma shiftLoop_result (content : list string) :
  forall fuel,
    forallb allWhiteSpace content = false ->
    List.length content < fuel ->
    shiftLoop fuel content = Normal (dropLeadingBlank content).
Proof.
  induction content as [|x l IH]; intros fuel Hne Hfuel.
  - discriminate.
  - destruct fuel as [|fuel]; [simpl in Hfuel; lia|].
    simpl. change (at_ (x :: l) (Some 0)) with (Str x).
    rewrite isEmpty_Str. simpl in Hne, Hfuel.
    destruct (allWhiteSpace x) eqn:Hx; [|reflexivity].
    apply IH; [exact Hne | lia].
Qed.

Lemma forallb_false_app_l (front l : list string) :
  forallb allWhiteSpace front = true ->
  forallb allWhiteSpace (front ++ l) = forallb allWhiteSpace l.
Proof. intros Hf. now rewrite forallb_app, Hf. Qed.

Lemma forallb_false_app_r (l back : list string) :
  forallb allWhiteSpace back = true ->
  forallb allWhiteSpace (l ++ back) = forallb allWhiteSpace l.
Proof. intros Hb. now rewrite forallb_app, Hb, andb_true_r. Qed.

Lemma dropTrailingBlank_solid (content : list string) :
  forallb allWhiteSpace content = false ->
  forallb allWhiteSpace (dropTrailingBlank content) = false.
Proof.
  intros Hne. destruct (dropTrailingBlank_split content) as [back [Heq Hb]].
  rewrite Heq in Hne. now rewrite forallb_false_app_r in Hne.
Qed.

Lemma dropTrailingBlank_length (content : list string) :
  List.length (dropTrailingBlank content) <= List.length content.
Proof.
  destruct (dropTrailingBlank_split content) as [back [Heq _]].
  rewrite Heq at 2. rewrite length_app. lia.
Qed.

Lemma last_app_nonempty (front l : list string) (d : string) :
  l <> [] -> List.last (front ++ l) d = List.last l d.
Proof.
  intros Hl. induction front as [|y front IH]; [reflexivity|].
  simpl. destruct (front ++ l) eqn:E; [|exact IH].
  apply app_eq_nil in E as [_ E]. contradiction.
Qed.

(** What is left has a first and a last line that are not blank. *)
Lemma trimmedContent_solid (content : list string) :
  forallb allWhiteSpace content = false -> solidEnds (trimmedContent content).
Proof.
  intros Hne. unfold solidEnds, trimmedContent.
  pose proof (dropTrailingBlank_solid content Hne) as Hs.
  destruct (dropLeadingBlank_head _ Hs) as [x [rest [Heq Hx]]].
  exists x, rest. repeat split; [exact Heq | exact Hx |].
  destruct (dropTrailingBlank_last content Hne) as [front [z [Hz Hzb]]].
  destruct (dropLeadingBlank_split (dropTrailingBlank content)) as [f [Hf _]].
  rewrite <- (last_app_nonempty f) by (rewrite Heq; discriminate).
  rewrite <- Hf, Hz, last_last. exact Hzb.
Qed.

(** A token with a line that is not blank comes out of the second [map]
    with the blank lines at both ends of its content taken off, and
    nothing else changed. *)
Lemma trimToken_result (lineNumber : nat) (type : TokenType) (content : list string) :
  forallb allWhiteSpace content = false ->
  trimToken (lineNumber, type, content)
  = Normal (lineNumber, type, trimmedContent content).
Proof.
  intros Hne. unfold trimToken. cbv zeta.
  rewrite popLoop_result by (auto; lia). cbn [bindC].
  rewrite shiftLoop_result;
    [reflexivity | now apply dropTrailingBlank_solid |].
  pose proof (dropTrailingBlank_length content). lia.
Qed.

Lemma trimmedContent_split (content : list string) :
  exists front back,
    content = front ++ trimmedContent content ++ back /\
    forallb allWhiteSpace front = true /\
    forallb allWhiteSpace back = true.
Proof.
  destruct (dropTrailingBlank_split content) as [back [Hb1 Hb2]].
  destruct (dropLeadingBlank_split (dropTrailingBlank content)) as [front [Hf1 Hf2]].
  exists front, back. repeat split; auto.
  unfold trimmedContent. rewrite app_assoc, <- Hf1. exact Hb1.
Qed.

End TrimmingFacts.

(** ** What [tokenize] gives (parser.ts, lines 124-204) *)

Section TokenizeFacts.

Import JS RegExp.

Lemma mapC_map {A B} (f : A -> completion B) (g : A -> B) (l : list A) :
  Forall (fun a => f a = Normal (g a)) l -> mapC f l = Normal (map g l).
Proof.
  induction 1 as [|a l Ha _ IH]; simpl; [reflexivity|].
  rewrite Ha. cbn [bindC]. rewrite IH. reflexivity.
Qed.

(** The stages of [tokenize], when it returns. *)
Lemma tokenize_stages (markdown : string) (tokens : list Token) :
  tokenize markdown = Normal tokens ->
  exists lines merged,
    mapIndexed lineToken 0 (split LF (trim markdown)) = Normal lines /\
    forEach lines 0 [] = Normal merged /\
    tokens
    = List.rev (map trimContent
                  (filter (fun token => negb (isEmpty (Arr (snd token)))) merged)).
Proof.
  unfold tokenize.
  destruct (mapIndexed lineToken 0 (split LF (trim markdown))) as [lines| |]
    eqn:Hlines; try discriminate. cbn [bindC].
  destruct (forEach lines 0 []) as [merged| |] eqn:Hmerged;
    try discriminate. cbn [bindC].
  rewrite (mapC_map trimToken trimContent).
  - cbn [bindC]. intros Heq. injection Heq as <-.
    exists lines, merged. auto.
  - apply Forall_forall. intros [[l t] c] Hin.
    apply filter_In in Hin as [_ Hne]. apply negb_true_iff in Hne.
    simpl in Hne. rewrite isEmpty_Arr in Hne.
    now apply trimToken_result.
Qed.

Lemma solid_truthy (content : list string) :
  solidEnds content -> truthy (join nl content) = true.
Proof.
  intros [x [rest [-> [Hx _]]]].
  destruct x as [|c x]; [discriminate|].
  destruct rest; reflexivity.
Qed.

Lemma tokenize_solid (markdown : string) (tokens : list Token) :
  tokenize markdown = Normal tokens ->
  Forall (fun t => solidEnds (contentOf t)) tokens.
Proof.
  intros Htok. apply tokenize_stages in Htok as [lines [merged [_ [_ ->]]]].
  apply Forall_rev, Forall_map, Forall_forall.
  intros [[l t] c] Hin. apply filter_In in Hin as [_ Hne].
  apply negb_true_iff in Hne. simpl in Hne. rewrite isEmpty_Arr in Hne.
  now apply trimmedContent_solid.
Qed.

(** *** Line numbers *)

Lemma lineToken_line (index : nat) (line : string) (lt : LineToken) :
  lineToken index line = Normal lt -> fst (fst lt) = index + 1.
Proof.
  destruct (lineToken_normal index line) as [type [content ->]].
  intros Heq. injection Heq as <-. reflexivity.
Qed.

Lemma mapIndexed_numbered (lines : list string) :
  forall index lts,
    mapIndexed lineToken index lines = Normal lts ->
    numbered index lts /\ List.length lts = List.length lines.
Proof.
  induction lines as [|l lines IH]; intros index lts; simpl.
  - intros Heq. injection Heq as <-. simpl. auto.
  - destruct (lineToken index l) as [[[n t] c]| |] eqn:Hl; try discriminate.
    cbn [bindC].
    destruct (mapIndexed lineToken (S index) lines) as [rest| |] eqn:Hr;
      try discriminate.
    cbn [bindC]. intros Heq. injection Heq as <-.
    apply lineToken_line in Hl. simpl in Hl.
    destruct (IH _ _ Hr) as [Hn Hlen]. simpl. auto.
Qed.

Lemma falling_weaken (i j : nat) (tokens : list Token) :
  i <= j -> falling i tokens -> falling j tokens.
Proof.
  intros Hij [Hs Hb]. split; [exact Hs|].
  eapply Forall_impl; [|exact Hb]. simpl. intros t Ht. lia.
Qed.

Lemma falling_cons (index : nat) (type : TokenType) (content : list string)
    (tokens : list Token) :
  falling index tokens ->
  falling (S index) ((index + 1, type, content) :: tokens).
Proof.
  intros [Hs Hb]. split.
  - simpl. constructor; [exact Hs|].
    apply Forall_map. eapply Forall_impl; [|exact Hb].
    simpl. intros t Ht. unfold lineOf at 1. simpl. lia.
  - constructor; [unfold lineOf; simpl; lia|].
    eapply Forall_impl; [|exact Hb]. simpl. intros t Ht. lia.
Qed.

Lemma falling_recontent (index prevLine : nat) (prevType : TokenType)
    (c c' : list string) (rest : list Token) :
  falling index ((prevLine, prevType, c) :: rest) ->
  falling (S index) ((prevLine, prevType, c') :: rest).
Proof.
  intros [Hs Hb]. apply (falling_weaken index); [lia|]. split.
  - exact Hs.
  - inversion Hb; subst. constructor; auto.
Qed.

Lemma mergeLine_falling tokens index type content tokens' :
  falling index tokens ->
  mergeLine tokens index (index + 1, type, content) = Normal tokens' ->
  falling (S index) tokens'.
Proof.
  intros Hf. unfold mergeLine.
  destruct index as [|index].
  - intros Heq. injection Heq as <-. now apply (falling_cons 0).
  - destruct tokens as [|[[prevLine prevType] prevContent] rest];
      [discriminate|].
    destruct type, prevType; intros Heq; injection Heq as <-;
      first [ now apply (falling_cons (S index))
            | now apply (falling_recontent (S index) _ _ prevContent) ].
Qed.

Lemma forEach_falling (lines : list LineToken) :
  forall index tokens tokens',
    numbered index lines ->
    falling index tokens ->
    forEach lines index tokens = Normal tokens' ->
    falling (index + List.length lines) tokens'.
Proof.
  induction lines as [|[[n t] c] lines IH]; intros index tokens tokens';
    cbn [forEach numbered List.length].
  - intros _ Hf Heq. injection Heq as <-. now rewrite Nat.add_0_r.
  - intros [-> Hn] Hf.
    destruct (mergeLine tokens index (index + 1, t, c)) as [merged| |] eqn:Hm;
      try discriminate.
    cbn [bindC]. intros Hfe.
    apply (mergeLine_falling _ _ _ _ _ Hf) in Hm.
    replace (index + S (List.length lines)) with (S index + List.length lines)
      by lia.
    eapply IH; eauto.
Qed.

Lemma StronglySorted_filter_gt (f : Token -> bool) (l : list Token) :
  StronglySorted gt (map lineOf l) ->
  StronglySorted gt (map lineOf (filter f l)).
Proof.
  induction l as [|a l IH]; simpl; intros Hs; [constructor|].
  apply StronglySorted_inv in Hs as [Hs Ha].
  destruct (f a); simpl; [|auto].
  constructor; [auto|].
  rewrite Forall_map in *. rewrite Forall_forall in *.
  intros x Hx. apply Ha. now apply filter_In in Hx as [Hx _].
Qed.

Lemma StronglySorted_rev_gt (l : list nat) :
  StronglySorted gt l -> StronglySorted lt (List.rev l).
Proof.
  induction l as [|a l IH]; simpl; intros Hs; [constructor|].
  apply StronglySorted_inv in Hs as [Hs Ha].
  specialize (IH Hs).
  assert (Hall : Forall (fun x => x < a) (List.rev l))
    by (apply Forall_rev; eapply Forall_impl; [|exact Ha]; simpl; lia).
  clear Hs Ha. induction (List.rev l) as [|b m IHm]; simpl.
  - constructor; constructor.
  - apply StronglySorted_inv in IH as [Hm Hb].
    inversion Hall; subst.
    constructor; [auto|].
    apply Forall_app. split; [exact Hb | constructor; [assumption | constructor]].
Qed.

Lemma map_lineOf_trimContent (l : list Token) :
  map lineOf (map trimContent l) = map lineOf l.
Proof. rewrite map_map. apply map_ext. now intros [[n t] c]. Qed.

Lemma tokenize_lines (markdown : string) (tokens : list Token) :
  tokenize markdown = Normal tokens ->
  StronglySorted lt (map lineOf tokens) /\
  Forall (fun t => 1 <= lineOf t <= List.length (split LF (trim markdown))) tokens.
Proof.
  intros Htok.
  apply tokenize_stages in Htok as [lines [merged [Hmap [Hfe ->]]]].
  apply mapIndexed_numbered in Hmap as [Hnum Hlen].
  assert (Hf : falling 0 []) by (split; constructor).
  pose proof (forEach_falling lines 0 [] merged Hnum Hf Hfe) as [Hs Hb].
  simpl in Hb. rewrite Hlen in Hb. split.
  - rewrite map_rev, map_lineOf_trimContent.
    apply StronglySorted_rev_gt, StronglySorted_filter_gt, Hs.
  - apply Forall_rev, Forall_map, Forall_forall.
    intros [[l t] c] Hin. apply filter_In in Hin as [Hin _].
    rewrite Forall_forall in Hb. exact (Hb _ Hin).
Qed.

End TokenizeFacts.

(** ** Tokens of one line, and runs of paragraph lines *)

Section MergeFacts.

Import JS RegExp.

Lemma lineToken_hr (index : nat) (line : string) (n : nat) (c : string) :
  lineToken index line = Normal (n, hr, c) -> c = "-".
Proof.
  unfold lineToken.
  destruct (startsWith line "---"); [intros Heq; now injection Heq as _ <-|].
  destruct (startsWith line "# "); [discriminate|].
  destruct (startsWith line "## "); [discriminate|].
  destruct (startsWith line "### "); [discriminate|].
  destruct (startsWith line "-"); [discriminate|].
  destruct (startsWith line "*"); [discriminate|].
  destruct (exec linkLine line); [discriminate|].
  destruct (exec flagLine line) as [m|]; [|discriminate].
  destruct (group m 1); discriminate.
Qed.

Lemma mapIndexed_hr (lines : list string) :
  forall index lts,
    mapIndexed lineToken index lines = Normal lts ->
    Forall (fun lt : LineToken => snd (fst lt) = hr -> snd lt = "-") lts.
Proof.
  induction lines as [|l lines IH]; intros index lts; cbn [mapIndexed].
  - intros Heq. injection Heq as <-. constructor.
  - destruct (lineToken index l) as [[[n t] c]| |] eqn:Hl; try discriminate.
    cbn [bindC].
    destruct (mapIndexed lineToken (S index) lines) as [rest| |] eqn:Hr;
      try discriminate.
    cbn [bindC]. intros Heq. injection Heq as <-.
    constructor; [|eapply IH; eauto].
    simpl. intros ->. eapply lineToken_hr; eauto.
Qed.

Lemma mergeLine_oneLine tokens index (line : LineToken) tokens' :
  (snd (fst line) = hr -> snd line = "-") ->
  Forall oneLine tokens ->
  mergeLine tokens index line = Normal tokens' ->
  Forall oneLine tokens'.
Proof.
  destruct line as [[n t] c]. simpl. intros Hhr Hall.
  assert (Hfresh : Forall oneLine ((n, t, [c]) :: tokens)).
  { constructor; [|exact Hall].
    unfold oneLine, typeOf, contentOf. simpl.
    destruct t; eauto. now rewrite Hhr. }
  unfold mergeLine. destruct index as [|index].
  - intros Heq. now injection Heq as <-.
  - destruct tokens as [|[[prevLine prevType] prevContent] rest];
      [discriminate|].
    inversion Hall; subst.
    destruct t, prevType; intros Heq; injection Heq as <-;
      first [ exact Hfresh | constructor; [exact I | assumption] ].
Qed.

Lemma forEach_oneLine (lines : list LineToken) :
  forall index tokens tokens',
    Forall (fun lt : LineToken => snd (fst lt) = hr -> snd lt = "-") lines ->
    Forall oneLine tokens ->
    forEach lines index tokens = Normal tokens' ->
    Forall oneLine tokens'.
Proof.
  induction lines as [|line lines IH]; intros index tokens tokens';
    cbn [forEach].
  - intros _ Hall Heq. now injection Heq as <-.
  - intros Hlines Hall. inversion Hlines; subst.
    destruct (mergeLine tokens index line) as [merged| |] eqn:Hm;
      try discriminate.
    cbn [bindC]. intros Hfe.
    apply (IH (S index) merged tokens' H2); [|exact Hfe].
    now apply (mergeLine_oneLine tokens index line merged H1 Hall).
Qed.

Lemma trimContent_oneLine (t : Token) :
  forallb allWhiteSpace (contentOf t) = false ->
  oneLine t -> oneLine (trimContent t).
Proof.
  destruct t as [[n type] c]. unfold oneLine, trimContent, typeOf, contentOf.
  simpl. intros Hne.
  destruct type; auto.
  - intros [x ->]. simpl in Hne. rewrite andb_true_r in Hne.
    exists x. unfold trimmedContent, dropTrailingBlank. simpl.
    rewrite Hne. simpl. now rewrite Hne.
  - intros [x ->]. simpl in Hne. rewrite andb_true_r in Hne.
    exists x. unfold trimmedContent, dropTrailingBlank. simpl.
    rewrite Hne. simpl. now rewrite Hne.
  - intros [x ->]. simpl in Hne. rewrite andb_true_r in Hne.
    exists x. unfold trimmedContent, dropTrailingBlank. simpl.
    rewrite Hne. simpl. now rewrite Hne.
  - intros [x ->]. simpl in Hne. rewrite andb_true_r in Hne.
    exists x. unfold trimmedContent, dropTrailingBlank. simpl.
    rewrite Hne. simpl. now rewrite Hne.
  - intros [x ->]. simpl in Hne. rewrite andb_true_r in Hne.
    exists x. unfold trimmedContent, dropTrailingBlank. simpl.
    rewrite Hne. simpl. now rewrite Hne.
  - intros ->. reflexivity.
Qed.

Lemma tokenize_oneLine (markdown : string) (tokens : list Token) :
  tokenize markdown = Normal tokens -> Forall oneLine tokens.
Proof.
  intros Htok.
  apply tokenize_stages in Htok as [lines [merged [Hmap [Hfe ->]]]].
  apply mapIndexed_hr in Hmap.
  pose proof (forEach_oneLine lines 0 [] merged Hmap (Forall_nil _) Hfe) as Hall.
  apply Forall_rev, Forall_map, Forall_forall.
  intros t Hin. apply filter_In in Hin as [Hin Hne].
  apply negb_true_iff in Hne. rewrite isEmpty_Arr in Hne.
  apply trimContent_oneLine; [exact Hne|].
  rewrite Forall_forall in Hall. now apply Hall.
Qed.

End MergeFacts.

(** ** The queue of [processTokens] (parser.ts, lines 36-118) *)

Section QueueFacts.

Import JS RegExp.

Context {R : Type} `{ReleaseLike R}.
Variable opts : Options R.

Lemma ret_leaves {A} (a : A) : leaves (ret a).
Proof. intros q. exists []. reflexivity. Qed.

Lemma lift_leaves {A} (c : completion A) : leaves (lift c).
Proof. intros q. exists []. reflexivity. Qed.

Lemma diverge_leaves {A} : leaves (@diverge A).
Proof. intros q. exists []. reflexivity. Qed.

Lemma getContent_leaves type required : leaves (getContent type required).
Proof.
  intros q. unfold getContent.
  destruct q as [|[[l t] c] rest].
  - exists []. destruct required; reflexivity.
  - destruct (TokenType_eqb t type); simpl.
    + exists [(l, t, c)]. reflexivity.
    + exists []. destruct required; reflexivity.
Qed.

Lemma bind_leaves {A B} (m : M A) (k : A -> M B) :
  leaves m -> (forall a, leaves (k a)) -> leaves (bind m k).
Proof.
  intros Hm Hk q. unfold bind.
  destruct (Hm q) as [taken Ht].
  destruct (m q) as [[a| e |] q']; cbn [snd] in *.
  - destruct (Hk a q') as [taken' Ht'].
    exists (taken ++ taken'). rewrite <- app_assoc, <- Ht'. exact Ht.
  - exists taken. exact Ht.
  - exists taken. exact Ht.
Qed.

Lemma while_leaves {St} (cond : M string) (body : string -> St -> M St) :
  leaves cond -> (forall x s, leaves (body x s)) ->
  forall fuel s, leaves (while fuel cond body s).
Proof.
  intros Hc Hb. induction fuel as [|fuel IH]; intros s; cbn [while].
  - apply diverge_leaves.
  - apply bind_leaves; [exact Hc|]. intros x.
    destruct (truthy x); [|apply ret_leaves].
    apply bind_leaves; [apply Hb | apply IH].
Qed.

Lemma lowered_leaves type :
  leaves (x <~ getContent type false ;; ret (toLowerCase x)).
Proof.
  apply bind_leaves; [apply getContent_leaves|]. intros. apply ret_leaves.
Qed.

Lemma releasesLoop_leaves fuel changelog : leaves (releasesLoop opts fuel changelog).
Proof.
  apply while_leaves; [apply lowered_leaves|]. intros release cl.
  apply bind_leaves; [apply lift_leaves|]. intros args.
  apply bind_leaves; [apply getContent_leaves|]. intros description.
  apply bind_leaves; [|intros; apply ret_leaves].
  apply while_leaves; [apply lowered_leaves|]. intros type r.
  apply while_leaves; [apply getContent_leaves|]. intros. apply ret_leaves.
Qed.

Lemma linksLoop_leaves fuel (changelog : Changelog.t R) :
  leaves (linksLoop fuel changelog).
Proof.
  apply while_leaves; [apply getContent_leaves|]. intros l cl.
  destruct (urlUnset cl); [|apply ret_leaves].
  destruct (exec compareLink l); apply ret_leaves.
Qed.

Lemma beforeFooter_leaves : leaves (beforeFooter opts).
Proof.
  intros q. unfold beforeFooter.
  apply bind_leaves.
  - unfold headerPart.
    apply bind_leaves; [apply getContent_leaves|]. intros f.
    apply bind_leaves; [apply getContent_leaves|]. intros t.
    apply bind_leaves; [apply getContent_leaves|]. intros d. apply ret_leaves.
  - intros cl. apply bind_leaves; [apply releasesLoop_leaves|].
    intros cl'. apply linksLoop_leaves.
Qed.

Lemma endPart_leaves (changelog : Changelog.t R) : leaves (endPart changelog).
Proof. intros q. exists []. unfold endPart. destruct q; reflexivity. Qed.

Lemma footerPart_leaves (changelog : Changelog.t R) : leaves (footerPart changelog).
Proof.
  unfold footerPart.
  apply bind_leaves; [apply getContent_leaves|]. intros rule.
  destruct (truthy rule); [|apply ret_leaves].
  apply bind_leaves; [apply getContent_leaves|]. intros. apply ret_leaves.
Qed.

(** What [processTokens] leaves of the queue is the queue it was given
    without some tokens at its front. *)
Lemma processTokens_leaves : leaves (processTokens opts).
Proof.
  unfold processTokens.
  apply bind_leaves; [apply beforeFooter_leaves|]. intros cl.
  apply bind_leaves; [apply footerPart_leaves | intros; apply endPart_leaves].
Qed.

(** A changelog is returned only when every token was taken. *)
Lemma processTokens_returns_empty tokens changelog rest :
  processTokens opts tokens = (Normal changelog, rest) -> rest = [].
Proof.
  unfold processTokens, bind.
  destruct (beforeFooter opts tokens) as [[cl| e |] q1]; try discriminate.
  destruct (footerPart cl q1) as [[cl2| e |] q2]; try discriminate.
  unfold endPart. destruct q2; [|discriminate].
  intros Heq. now injection Heq as _ <-.
Qed.

(** A loop keeps what each turn of its body keeps. *)
Lemma while_preserves {St} (P : St -> Prop) (cond : M string)
    (body : string -> St -> M St) :
  (forall x s q s' q', P s -> body x s q = (Normal s', q') -> P s') ->
  forall fuel s q s' q',
    P s -> while fuel cond body s q = (Normal s', q') -> P s'.
Proof.
  intros Hb. induction fuel as [|fuel IH]; intros s q s' q' Hs; cbn [while].
  - discriminate.
  - unfold bind. destruct (cond q) as [[x| e |] q1]; try discriminate.
    destruct (truthy x).
    + destruct (body x s q1) as [[s1| e |] q2] eqn:Hbody; try discriminate.
      apply IH. eapply Hb; eauto.
    + unfold ret. intros Heq. now injection Heq as <- _.
Qed.

Lemma sameHeader_refl (a : Changelog.t R) : sameHeader a a.
Proof. repeat split. Qed.

Lemma releasesLoop_header fuel (cl0 cl cl' : Changelog.t R) q q' :
  sameHeader cl0 cl ->
  releasesLoop opts fuel cl q = (Normal cl', q') -> sameHeader cl0 cl'.
Proof.
  unfold releasesLoop. apply while_preserves.
  clear. intros release s q s' q' Hs. unfold bind, lift.
  destruct (releaseArguments release) as [args| |]; try discriminate.
  destruct (getContent para false q) as [[d| |] q1]; try discriminate.
  destruct (typesLoop _ _ q1) as [[r| |] q2]; try discriminate.
  unfold ret. intros Heq. injection Heq as <- _. exact Hs.
Qed.

Lemma linksLoop_header fuel (cl0 cl cl' : Changelog.t R) q q' :
  sameHeader cl0 cl ->
  linksLoop fuel cl q = (Normal cl', q') -> sameHeader cl0 cl'.
Proof.
  unfold linksLoop. apply while_preserves.
  clear. intros l s q s' q' Hs.
  destruct (urlUnset s);
    [destruct (exec compareLink l)|];
    unfold ret; intros Heq; injection Heq as <- _; exact Hs.
Qed.

(** The flag, the title and the description of a returned changelog are
    those read at the head of the queue. *)
Lemma processTokens_header tokens (changelog : Changelog.t R) rest :
  processTokens opts tokens = (Normal changelog, rest) ->
  exists cl0 q0,
    headerPart tokens = (Normal cl0, q0) /\ sameHeader cl0 changelog.
Proof.
  unfold processTokens, beforeFooter, bind at 1 2.
  destruct (headerPart tokens) as [[cl0| e |] q0] eqn:Hh; try discriminate.
  unfold bind at 1.
  destruct (releasesLoop opts _ cl0 q0) as [[cl1| e |] q1] eqn:Hr;
    try discriminate.
  destruct (linksLoop _ cl1 q1) as [[cl2| e |] q2] eqn:Hl; try discriminate.
  unfold bind, footerPart at 1. unfold bind.
  pose proof (releasesLoop_header _ cl0 cl0 cl1 _ _ (sameHeader_refl cl0) Hr) as H1.
  pose proof (linksLoop_header _ cl0 cl1 cl2 _ _ H1 Hl) as H2.
  intros Hend. exists cl0, q0. split; [reflexivity|].
  destruct (getContent hr false q2) as [[rule| e |] q3]; try discriminate.
  destruct (truthy rule).
  - destruct (getContent para false q3) as [[f| e |] q4]; try discriminate.
    unfold ret, endPart in Hend. destruct q4; [|discriminate].
    injection Hend as <- _. exact H2.
  - unfold ret, endPart in Hend. destruct q3; [|discriminate].
    injection Hend as <- _. exact H2.
Qed.

End QueueFacts.

(** ** What the patterns of the source capture *)

Section CaptureFacts.

Import JS RegExp.

Lemma repeatGreedy_sound {X} cls s :
  forall min max (k : string -> option X) x,
    repeatGreedy cls min max s k = Some x ->
    exists w s',
      s = w +++ s' /\ allIn cls w = true /\ min <= String.length w /\
      withinMax max (String.length w) /\ k s' = Some x.
Proof.
  induction s as [|c s IH]; intros min max k x; simpl.
  - destruct min; [|discriminate]. intros Hk.
    exists EmptyString, EmptyString. repeat split; auto.
    destruct max; simpl; lia.
  - assert (Hstop : match min with O => k (String c s) | S _ => None end = Some x ->
                    exists w s',
                      String c s = w +++ s' /\ allIn cls w = true /\
                      min <= String.length w /\
                      withinMax max (String.length w) /\ k s' = Some x).
    { destruct min; [|discriminate]. intros Hk.
      exists EmptyString, (String c s). repeat split; auto.
      destruct max; simpl; lia. }
    destruct (cls c) eqn:Hc; simpl; [|exact Hstop].
    destruct (mayRepeat max) eqn:Hmax; [|exact Hstop].
    destruct (repeatGreedy cls (pred min) (decr max) s k) eqn:Hrec; [|exact Hstop].
    intros Hx. injection Hx as ->.
    destruct (IH _ _ _ _ Hrec) as [w [s' [-> [Hw [Hmin [Hwm Hk]]]]]].
    exists (String c w), s'. simpl. rewrite Hc, Hw.
    repeat split; auto; [lia|].
    destruct max as [[|m]|]; simpl in *; try discriminate; auto. lia.
Qed.

(** A successful match has read a string the pattern stands for, and
    has captured, for each group, a string the pattern inside it stands
    for. *)
Lemma matchHere_sound {X} input r :
  forall s caps (k : string -> list string -> option X) x,
    matchHere input r s caps k = Some x ->
    exists w s' new,
      s = w +++ s' /\ denotes r w /\
      Forall2 (fun g r' => denotes r' g) new (groupSpecs r) /\
      k s' (caps ++ new) = Some x.
Proof.
  induction r as [ | c | cls min max | r1 IHr1 r2 IHr2 | r1 IHr | | ];
    intros s caps k x; simpl.
  - intros Hk. exists EmptyString, s, []. rewrite app_nil_r.
    repeat split; auto; constructor.
  - destruct s as [|c' s]; [discriminate|].
    destruct (Ascii.eqb_spec c c') as [<-|]; [|discriminate].
    intros Hk. exists (String c EmptyString), s, []. rewrite app_nil_r.
    repeat split; auto; constructor.
  - intros Hk. apply repeatGreedy_sound in Hk as [w [s' [-> [Hw [Hmin [Hmax Hk]]]]]].
    exists w, s', []. rewrite app_nil_r.
    repeat split; auto; constructor; auto.
  - intros Hm. apply IHr1 in Hm as [w1 [s1 [new1 [-> [Hd1 [Hg1 Hm]]]]]].
    apply IHr2 in Hm as [w2 [s2 [new2 [-> [Hd2 [Hg2 Hm]]]]]].
    exists (w1 +++ w2), s2, (new1 ++ new2).
    rewrite append_assoc, app_assoc.
    repeat split; auto; [now constructor | now apply Forall2_app].
  - intros Hm. apply IHr in Hm as [w [s' [new [-> [Hd [Hg Hm]]]]]].
    rewrite consumed_suffix in Hm.
    exists w, s', (new ++ [w]). rewrite app_assoc.
    repeat split; auto; [now constructor|].
    apply Forall2_app; [exact Hg | constructor; [exact Hd | constructor]].
  - destruct (Nat.eqb _ _); [|discriminate].
    intros Hk. exists EmptyString, s, []. rewrite app_nil_r.
    repeat split; auto; constructor.
  - destruct s; [|discriminate].
    intros Hk. exists EmptyString, EmptyString, []. rewrite app_nil_r.
    repeat split; auto; constructor.
Qed.

Lemma search_sound input r s m :
  search input r s = Some m ->
  Forall2 (fun g r' => denotes r' g) (groups m) (groupSpecs r).
Proof.
  induction s as [|c s IH]; simpl.
  - destruct (matchAt input r EmptyString) eqn:Hm; [|discriminate].
    intros Heq. injection Heq as <-. unfold matchAt in Hm.
    apply matchHere_sound in Hm as [w [s' [new [_ [_ [Hg Hm]]]]]].
    injection Hm as <-. exact Hg.
  - destruct (matchAt input r (String c s)) eqn:Hm; [|exact IH].
    intros Heq. injection Heq as <-. unfold matchAt in Hm.
    apply matchHere_sound in Hm as [w [s' [new [_ [_ [Hg Hm]]]]]].
    injection Hm as <-. exact Hg.
Qed.

Lemma exec_sound r s m :
  exec r s = Some m ->
  Forall2 (fun g r' => denotes r' g) (groups m) (groupSpecs r).
Proof. apply search_sound. Qed.

Lemma denotes_Plus_nonempty cls w :
  denotes (Plus cls) w -> w <> EmptyString /\ allIn cls w = true.
Proof.
  intros Hd. inversion Hd; subst. split; [|assumption].
  intros ->. simpl in *. lia.
Qed.

Lemma denotes_datePattern (date : string) :
  denotes datePattern date -> dateShape date.
Proof.
  unfold datePattern, Times. cbn [cat]. intros Hd.
  repeat match goal with
         | H : denotes (Seq _ _) _ |- _ => inversion H; subst; clear H
         | H : denotes (Char _) _ |- _ => inversion H; subst; clear H
         | H : denotes Empty _ |- _ => inversion H; subst; clear H
         | H : denotes (Repeat _ _ _) _ |- _ => inversion H; subst; clear H
         end.
  unfold withinMax in *.
  match goal with
  | |- dateShape (?y +++ _ +++ ?m +++ _ +++ ?d +++ _) => exists y, m, d
  end.
  rewrite append_empty_r. repeat split; auto; lia.
Qed.

Lemma denotes_Lit (s w : string) : denotes (Lit s) w -> w = s.
Proof.
  revert w. induction s as [|c s IH]; intros w Hd; simpl in Hd.
  - now inversion Hd.
  - inversion Hd; subst.
    match goal with
    | H : denotes (Char _) _ |- _ => inversion H; subst
    end.
    simpl. f_equal. auto.
Qed.

(** The address captured from a compare link begins with [http]. *)
Lemma compareLink_group (l : string) (m : MatchResult) :
  exec compareLink l = Some m ->
  exists w, group m 1 = Some ("http" +++ w).
Proof.
  intros Hm. apply exec_sound in Hm.
  change (groupSpecs compareLink) with [Seq (Lit "http") (Star dot)] in Hm.
  inversion Hm as [|g1 r1 gs1 rs1 Hg1 Hnil Hgs]; subst.
  inversion Hnil; subst.
  inversion Hg1 as [ | | | ra rb w1 w2 Hw1 Hw2 | | | ]; subst.
  apply (denotes_Lit "http") in Hw1. subst.
  exists w2. unfold group. now rewrite <- Hgs.
Qed.

End CaptureFacts.

(** ** Releases and links (parser.ts, lines 46-89) *)

Section ReleaseFacts.

Import JS RegExp.

Context {R : Type} `{ReleaseLike R}.
Variable opts : Options R.

Lemma allTruthy_leaves {A} (m : M A) (q : list Token) :
  leaves m -> allTruthy q -> allTruthy (snd (m q)).
Proof.
  intros Hm Hq. destruct (Hm q) as [taken Ht].
  unfold allTruthy in *. rewrite Ht in Hq.
  now apply Forall_app in Hq as [_ Hq].
Qed.

Lemma ret_keeps {A} (a : A) : keepsHeaders (ret a).
Proof. intros q. reflexivity. Qed.

Lemma bind_keeps {A B} (m : M A) (k : A -> M B) :
  keepsHeaders m -> (forall a, keepsHeaders (k a)) -> keepsHeaders (bind m k).
Proof.
  intros Hm Hk q. unfold bind. specialize (Hm q).
  destruct (m q) as [[a| e |] q']; cbn [snd] in *; auto.
  now rewrite Hk.
Qed.

Lemma while_keeps {St} (cond : M string) (body : string -> St -> M St) :
  keepsHeaders cond -> (forall x s, keepsHeaders (body x s)) ->
  forall fuel s, keepsHeaders (while fuel cond body s).
Proof.
  intros Hc Hb. induction fuel as [|fuel IH]; intros s; cbn [while].
  - intros q. reflexivity.
  - apply bind_keeps; [exact Hc|]. intros x.
    destruct (truthy x); [|apply ret_keeps].
    apply bind_keeps; [apply Hb | apply IH].
Qed.

Lemma getContent_keeps type required :
  type <> h2 -> keepsHeaders (getContent type required).
Proof.
  intros Hty q. unfold getContent.
  destruct q as [|[[l t] c] rest]; [destruct required; reflexivity|].
  destruct (TokenType_eqb t type) eqn:Ht; simpl.
  - unfold countType. simpl. unfold typeOf at 1. simpl.
    destruct t, type; try discriminate; try reflexivity. contradiction.
  - destruct required; reflexivity.
Qed.

Lemma lowered_keeps type :
  type <> h2 -> keepsHeaders (x <~ getContent type false ;; ret (toLowerCase x)).
Proof.
  intros Hty. apply bind_keeps; [now apply getContent_keeps|].
  intros. apply ret_keeps.
Qed.

Lemma typesLoop_keeps fuel (release : R) : keepsHeaders (typesLoop fuel release).
Proof.
  apply while_keeps; [apply lowered_keeps; discriminate|]. intros type r.
  apply while_keeps; [apply getContent_keeps; discriminate|].
  intros. apply ret_keeps.
Qed.

Lemma linksLoop_keeps fuel (changelog : Changelog.t R) :
  keepsHeaders (linksLoop fuel changelog).
Proof.
  apply while_keeps; [apply getContent_keeps; discriminate|]. intros l cl.
  destruct (urlUnset cl); [|apply ret_keeps].
  destruct (exec compareLink l); apply ret_keeps.
Qed.

Lemma footerPart_keeps (changelog : Changelog.t R) :
  keepsHeaders (footerPart changelog).
Proof.
  unfold footerPart.
  apply bind_keeps; [apply getContent_keeps; discriminate|]. intros rule.
  destruct (truthy rule); [|apply ret_keeps].
  apply bind_keeps; [apply getContent_keeps; discriminate|].
  intros. apply ret_keeps.
Qed.

Lemma headerPart_keeps : keepsHeaders (@headerPart R).
Proof.
  unfold headerPart.
  apply bind_keeps; [apply getContent_keeps; discriminate|]. intros f.
  apply bind_keeps; [apply getContent_keeps; discriminate|]. intros t.
  apply bind_keeps; [apply getContent_keeps; discriminate|]. intros d.
  apply ret_keeps.
Qed.

(** The condition of the release loop on a queue of tokens with content:
    a string that is not empty means that an [h2] token was taken, an
    empty one that nothing was. *)
Lemma header_condition (q q1 : list Token) (x : string) :
  allTruthy q ->
  (release <~ getContent h2 false ;; ret (toLowerCase release)) q
  = (Normal x, q1) ->
  if truthy x then countType h2 q = S (countType h2 q1)
  else q1 = q.
Proof.
  intros Hq. unfold bind, getContent, ret.
  destruct q as [|[[l t] c] rest].
  - intros Heq. injection Heq as <- <-. reflexivity.
  - inversion Hq as [|? ? Ht _]; subst. unfold contentOf in Ht. simpl in Ht.
    destruct (TokenType_eqb t h2) eqn:Hty; simpl.
    + intros Heq. injection Heq as <- <-.
      rewrite truthy_toLowerCase, Ht.
      unfold countType. simpl. unfold typeOf at 1. simpl. now rewrite Hty.
    + intros Heq. injection Heq as <- <-. reflexivity.
Qed.

(** Each turn of the release loop takes one [h2] token and adds one
    release. *)
Lemma releasesLoop_counts fuel :
  forall limit (cl cl' : Changelog.t R) q q',
    allTruthy q ->
    while limit (release <~ getContent h2 false ;; ret (toLowerCase release))
      (fun release changelog =>
         args <~ lift (releaseArguments release) ;;
         let release := releaseCreator opts (fst args) (snd args) None in
         description <~ getContent para false ;;
         let release := setDescription description release in
         release <~ typesLoop fuel release ;;
         ret (Changelog.addRelease release changelog)) cl q
    = (Normal cl', q') ->
    List.length (Changelog.releases cl') + countType h2 q'
    = List.length (Changelog.releases cl) + countType h2 q.
Proof.
  induction limit as [|limit IH]; intros cl cl' q q' Hq; cbn [while].
  - discriminate.
  - unfold bind at 1.
    pose proof (header_condition q) as Hcond.
    pose proof (allTruthy_leaves _ q (lowered_leaves h2) Hq) as Hq1.
    destruct ((release <~ getContent h2 false ;; ret (toLowerCase release)) q)
      as [[x| e |] q1]; try discriminate.
    specialize (Hcond q1 x Hq eq_refl). cbn [snd] in Hq1.
    destruct (truthy x).
    + unfold bind at 1. unfold bind at 1. unfold lift.
      destruct (releaseArguments x) as [args| |]; try discriminate.
      unfold bind at 1.
      pose proof (getContent_keeps para false ltac:(discriminate) q1) as Hk1.
      pose proof (allTruthy_leaves _ q1 (getContent_leaves para false) Hq1) as Hq2.
      destruct (getContent para false q1) as [[d| e |] q2]; try discriminate.
      cbn [snd] in *. unfold bind at 1.
      pose proof (typesLoop_keeps fuel
                    (setDescription d (releaseCreator opts (fst args) (snd args) None))
                    q2) as Hk2.
      assert (Hq3 : allTruthy
                      (snd (typesLoop fuel
                              (setDescription d
                                 (releaseCreator opts (fst args) (snd args) None)) q2))).
      { apply allTruthy_leaves; [|exact Hq2].
        apply while_leaves; [apply lowered_leaves|]. intros type r.
        apply while_leaves; [apply getContent_leaves|]. intros. apply ret_leaves. }
      destruct (typesLoop fuel _ q2) as [[r| e |] q3]; try discriminate.
      cbn [snd] in *. unfold ret at 1. intros Hw.
      apply IH in Hw; [|exact Hq3].
      rewrite Hw. unfold Changelog.addRelease. cbn [Changelog.releases].
      rewrite length_app. simpl. lia.
    + unfold ret. intros Heq. injection Heq as <- <-. now rewrite Hcond.
Qed.

Lemma linksLoop_releases fuel (cl cl' : Changelog.t R) q q' :
  linksLoop fuel cl q = (Normal cl', q') ->
  Changelog.releases cl' = Changelog.releases cl.
Proof.
  unfold linksLoop.
  apply (while_preserves (fun s => Changelog.releases s = Changelog.releases cl));
    [|reflexivity].
  clear. intros l s q s' q' Hs.
  destruct (urlUnset s);
    [destruct (exec compareLink l)|];
    unfold ret; intros Heq; injection Heq as <- _; exact Hs.
Qed.

(** On tokens with content, a returned changelog has one release for
    each [h2] token. *)
Lemma processTokens_release_count tokens (changelog : Changelog.t R) rest :
  allTruthy tokens ->
  processTokens opts tokens = (Normal changelog, rest) ->
  List.length (Changelog.releases changelog) = countType h2 tokens.
Proof.
  intros Hq. unfold processTokens, beforeFooter, bind at 1 2.
  pose proof (headerPart_keeps tokens) as Hk0.
  pose proof (allTruthy_leaves (@headerPart R) tokens) as Hq0.
  destruct (headerPart tokens) as [[cl0| e |] q0] eqn:Hh; try discriminate.
  assert (Hr0 : Changelog.releases cl0 = []).
  { revert Hh. unfold headerPart, bind, ret.
    destruct (getContent flag false tokens) as [[f| |] qa]; try discriminate.
    destruct (getContent h1 true qa) as [[t| |] qb]; try discriminate.
    destruct (getContent para false qb) as [[d| |] qc]; try discriminate.
    intros Heq. now injection Heq as <- _. }
  cbn [snd] in *. unfold bind at 1.
  destruct (releasesLoop opts _ cl0 q0) as [[cl1| e |] q1] eqn:Hr;
    try discriminate.
  unfold releasesLoop in Hr. apply releasesLoop_counts in Hr.
  2:{ apply Hq0; [|exact Hq]. unfold headerPart.
      apply bind_leaves; [apply getContent_leaves|]. intros f.
      apply bind_leaves; [apply getContent_leaves|]. intros t.
      apply bind_leaves; [apply getContent_leaves|]. intros d. apply ret_leaves. }
  pose proof (linksLoop_keeps (S (List.length tokens)) cl1 q1) as Hk2.
  destruct (linksLoop _ cl1 q1) as [[cl2| e |] q2] eqn:Hl; try discriminate.
  apply linksLoop_releases in Hl. cbn [snd] in *.
  unfold bind at 1.
  pose proof (footerPart_keeps cl2 q2) as Hk3.
  assert (Hf : forall cl3 q3, footerPart cl2 q2 = (Normal cl3, q3) ->
                              Changelog.releases cl3 = Changelog.releases cl2).
  { unfold footerPart, bind, ret. intros cl3 q3.
    destruct (getContent hr false q2) as [[rule| |] qa]; try discriminate.
    destruct (truthy rule).
    - destruct (getContent para false qa) as [[f| |] qb]; try discriminate.
      intros Heq. now injection Heq as <- _.
    - intros Heq. now injection Heq as <- _. }
  destruct (footerPart cl2 q2) as [[cl3| e |] q3]; try discriminate.
  specialize (Hf cl3 q3 eq_refl). cbn [snd] in *.
  unfold endPart. destruct q3; [|discriminate].
  intros Heq. injection Heq as <- _.
  rewrite Hr0 in Hr. unfold countType in *. simpl in *.
  rewrite Hf, Hl. lia.
Qed.

(** Once the address is set, no link changes it; and when it is not set
    and the link at the front of the queue is a compare link, the address
    is the one of that link, whatever links follow. *)
Lemma linksLoop_set fuel (cl cl' : Changelog.t R) q q' :
  urlUnset cl = false ->
  linksLoop fuel cl q = (Normal cl', q') -> cl' = cl.
Proof.
  intros Hset. unfold linksLoop.
  apply (while_preserves (fun s => s = cl)); [|reflexivity].
  intros l s q0 s' q0' ->. rewrite Hset.
  unfold ret. intros Heq. now injection Heq as <- _.
Qed.

Lemma linksLoop_first fuel (cl cl' : Changelog.t R)
    (l : nat) (c : list string) (m : MatchResult) q q' :
  urlUnset cl = true ->
  truthy (join nl c) = true ->
  exec compareLink (join nl c) = Some m ->
  linksLoop (S fuel) cl ((l, link, c) :: q) = (Normal cl', q') ->
  cl' = Changelog.setUrl (group m 1) cl.
Proof.
  intros Hunset Hc Hm. unfold linksLoop. cbn [while].
  unfold bind at 1. unfold getContent at 1. cbn [TokenType_eqb negb].
  rewrite Hc, Hunset, Hm. unfold bind at 1, ret at 1.
  apply (linksLoop_set fuel).
  destruct (compareLink_group _ _ Hm) as [w ->]. reflexivity.
Qed.

(** The link loop has no way to throw: with fuel above the length of the
    queue it returns. *)
Lemma linksLoop_returns fuel :
  forall (cl : Changelog.t R) q,
    List.length q < fuel ->
    exists cl' q', linksLoop fuel cl q = (Normal cl', q').
Proof.
  induction fuel as [|fuel IH]; intros cl q Hlen; [lia|].
  unfold linksLoop. cbn [while]. unfold bind at 1, getContent at 1.
  destruct q as [|[[l t] c] rest].
  - cbn. unfold ret. eauto.
  - destruct (TokenType_eqb t link); cbn [negb]; [|cbn; unfold ret; eauto].
    destruct (truthy (join nl c)) eqn:Hc; [|cbn; rewrite ?Hc; unfold ret; eauto].
    simpl in Hlen.
    destruct (urlUnset cl);
      [destruct (exec compareLink (join nl c))|];
      unfold bind, ret; apply IH; lia.
Qed.

End ReleaseFacts.

(** ** Further properties, as stated for the record *)

Section Further.

Import JS RegExp.

(** X1.  [isEmpty] holds of a string exactly when all its characters
    are white space, of an array exactly when all its lines are such, and
    of [undefined]. *)
Theorem X1_isEmpty_is_blank :
  (forall s, isEmpty (Str s) = allWhiteSpace s) /\
  (forall a, isEmpty (Arr a) = forallb allWhiteSpace a) /\
  isEmpty Undefined = true.
Proof.
  repeat split; [apply isEmpty_Str | apply isEmpty_Arr].
Qed.

(** X2.  A token with a line that is not blank leaves the two trimming
    loops with the same line number and type, and with its content
    without the blank lines at its two ends: what was taken off is blank,
    and the first and the last line of what is left are not. *)
Theorem X2_trimToken_takes_blank_ends
    (lineNumber : nat) (type : TokenType) (content : list string) :
  forallb allWhiteSpace content = false ->
  trimToken (lineNumber, type, content)
  = Normal (lineNumber, type, trimmedContent content) /\
  solidEnds (trimmedContent content) /\
  exists front back,
    content = front ++ trimmedContent content ++ back /\
    forallb allWhiteSpace front = true /\
    forallb allWhiteSpace back = true.
Proof.
  intros Hne. repeat split.
  - now apply trimToken_result.
  - now apply trimmedContent_solid.
  - apply trimmedContent_split.
Qed.

Lemma X2_trimToken_takes_blank_ends_witness :
  trimToken (3, li, [" "; "a"; EmptyString; "b"; EmptyString])
  = Normal (3, li, trimmedContent [" "; "a"; EmptyString; "b"; EmptyString]) /\
  solidEnds (trimmedContent [" "; "a"; EmptyString; "b"; EmptyString]) /\
  exists front back,
    [" "; "a"; EmptyString; "b"; EmptyString]
    = front ++ trimmedContent [" "; "a"; EmptyString; "b"; EmptyString] ++ back /\
    forallb allWhiteSpace front = true /\
    forallb allWhiteSpace back = true.
Proof.
  apply (X2_trimToken_takes_blank_ends 3 li
           [" "; "a"; EmptyString; "b"; EmptyString]).
  reflexivity.
Defined.

(** X3.  On content that [isEmpty] takes for empty, the first trimming
    loop does not end, however many turns it is given: it is the filter
    before the loops that keeps such content away from them. *)
Theorem X3_trimming_blank_content_never_ends
    (content : list string) (fuel : nat) :
  isEmpty (Arr content) = true -> popLoop fuel content = Diverge.
Proof.
  rewrite isEmpty_Arr. apply popLoop_blank_diverges.
Qed.

Lemma X3_trimming_blank_content_never_ends_witness :
  popLoop 1000 [" "; EmptyString] = Diverge.
Proof.
  apply (X3_trimming_blank_content_never_ends [" "; EmptyString] 1000).
  reflexivity.
Defined.

(** X4.  Every token that [tokenize] gives has content whose first and
    last lines are not blank; so its content joins to a string that is not
    empty, and [getContent] gives the empty string only when it takes no
    token. *)
Theorem X4_tokens_have_content (markdown : string) :
  exists tokens,
    tokenize markdown = Normal tokens /\
    Forall (fun t => solidEnds (contentOf t) /\
                     truthy (join nl (contentOf t)) = true) tokens.
Proof.
  destruct (tokenize_normal markdown) as [tokens Htok].
  exists tokens. split; [exact Htok|].
  pose proof (tokenize_solid markdown tokens Htok) as Hs.
  rewrite Forall_forall in *. intros t Hin.
  split; [now apply Hs | apply solid_truthy; now apply Hs].
Qed.

(** X5.  The tokens come in the order of the text: their line numbers
    rise strictly, and lie between 1 and the number of lines of the
    trimmed text. *)
Theorem X5_tokens_in_line_order (markdown : string) :
  exists tokens,
    tokenize markdown = Normal tokens /\
    StronglySorted lt (map lineOf tokens) /\
    Forall (fun t => 1 <= lineOf t <= List.length (split LF (trim markdown)))
      tokens.
Proof.
  destruct (tokenize_normal markdown) as [tokens Htok].
  exists tokens. split; [exact Htok|].
  exact (tokenize_lines markdown tokens Htok).
Qed.

(** X6.  Only paragraph and list item tokens hold more than one line:
    a heading, link or flag token holds exactly one, and a rule token the
    line [-]. *)
Theorem X6_only_paragraphs_and_items_merge (markdown : string) :
  exists tokens, tokenize markdown = Normal tokens /\ Forall oneLine tokens.
Proof.
  destruct (tokenize_normal markdown) as [tokens Htok].
  exists tokens. split; [exact Htok|].
  exact (tokenize_oneLine markdown tokens Htok).
Qed.

(** X7.  In [forEach], a run of paragraph lines after a paragraph token
    is appended to it line by line; after a list item token the run is
    appended to the item, each line without its two leading blanks if it
    has them, and blank lines do not end the run. *)
Theorem X7_paragraph_run_is_one_token
    (run : list (nat * string)) (index prevLine : nat)
    (prevContent : list string) (rest : list Token) :
  forEach (map (fun p => (fst p, para, snd p)) run) (S index)
    ((prevLine, para, prevContent) :: rest)
  = Normal ((prevLine, para, prevContent ++ map snd run) :: rest) /\
  forEach (map (fun p => (fst p, para, snd p)) run) (S index)
    ((prevLine, li, prevContent) :: rest)
  = Normal ((prevLine, li,
             prevContent ++ map (fun p => dropTwoBlanks (snd p)) run) :: rest).
Proof.
  revert index prevLine prevContent rest.
  induction run as [|[n c] run IH]; intros index prevLine prevContent rest.
  - simpl. now rewrite app_nil_r.
  - cbn [map forEach fst snd]. unfold mergeLine. cbn [bindC].
    rewrite replace_twoBlanks.
    destruct (IH (S index) prevLine (prevContent ++ [c]) rest) as [-> _].
    destruct (IH (S index) prevLine (prevContent ++ [dropTwoBlanks c]) rest)
      as [_ ->].
    now rewrite <- !app_assoc.
Qed.

(** X8.  [processTokens] and [parser] end on every input, by returning
    or by throwing: each turn of each loop takes a token off the queue. *)
Theorem X8_parser_ends :
  forall (R : Type) (RL : ReleaseLike R) (opts : Options R),
    (forall tokens, fst (processTokens opts tokens) <> Diverge) /\
    (forall markdown,
        (exists changelog, parser opts markdown = Normal changelog) \/
        (exists error, parser opts markdown = Throw error)).
Proof.
  intros R RL opts. split; [apply processTokens_ends|].
  intros markdown. pose proof (parser_ends opts markdown) as Hd.
  destruct (parser opts markdown) as [cl| e |]; eauto. contradiction.
Qed.

(** X9.  What [processTokens] leaves of the queue is the queue it was
    given without some tokens at the front; and when it returns a
    changelog, it leaves nothing: every token was taken. *)
Theorem X9_returns_when_queue_empty :
  forall (R : Type) (RL : ReleaseLike R) (opts : Options R)
         (tokens : list Token),
    (exists taken, tokens = taken ++ snd (processTokens opts tokens)) /\
    match processTokens opts tokens with
    | (Normal _, rest) => rest = []
    | _ => True
    end.
Proof.
  intros R RL opts tokens. split.
  - apply processTokens_leaves.
  - destruct (processTokens opts tokens) as [[cl| e |] rest] eqn:Hp; auto.
    eapply processTokens_returns_empty; eauto.
Qed.

(** X10.  An error of [parser] is the fault of the empty queue, or it
    names the line of a token of the text, a line between 1 and the number
    of lines of the trimmed text. *)
Theorem X10_error_names_a_line_of_the_text :
  forall (R : Type) (RL : ReleaseLike R) (opts : Options R)
         (markdown : string) (error : JsError),
    parser opts markdown = Throw error ->
    error = undefinedRead "0" \/
    exists tokens t msg,
      tokenize markdown = Normal tokens /\
      In t tokens /\
      1 <= lineOf t <= List.length (split LF (trim markdown)) /\
      error = Error ("Parse error in the line " +++ numberToString (lineOf t)
                       +++ ": " +++ msg).
Proof.
  intros R RL opts markdown error. unfold parser.
  destruct (tokenize_normal markdown) as [tokens Htok]. rewrite Htok.
  cbn [bindC].
  destruct (processTokens_leaves opts tokens) as [taken Ht].
  destruct (processTokens opts tokens) as [[cl| e |] q]; cbn [snd] in Ht;
    try discriminate.
  destruct q as [|[[n t] c] q]; intros Heq; injection Heq as <-.
  - now left.
  - right. exists tokens, (n, t, c), (message e).
    assert (Hin : In (n, t, c) tokens)
      by (rewrite Ht; apply in_or_app; right; now left).
    repeat split; auto.
    + destruct (tokenize_lines markdown tokens Htok) as [_ Hb].
      rewrite Forall_forall in Hb. exact (proj1 (Hb _ Hin)).
    + destruct (tokenize_lines markdown tokens Htok) as [_ Hb].
      rewrite Forall_forall in Hb. exact (proj2 (Hb _ Hin)).
Qed.

(** The first line is a list item without text, which gives no token:
    the only token is on line 2, and line 2 is the line named. *)
Lemma X10_error_names_a_line_of_the_text_witness :
  Error ("Parse error in the line 2: Required token missing in: " +++ dq
           +++ "2" +++ dq) = undefinedRead "0" \/
  exists tokens t msg,
    tokenize (text ["-"; "## x"]) = Normal tokens /\
    In t tokens /\
    1 <= lineOf t <= List.length (split LF (trim (text ["-"; "## x"]))) /\
    Error ("Parse error in the line 2: Required token missing in: " +++ dq
             +++ "2" +++ dq)
    = Error ("Parse error in the line " +++ numberToString (lineOf t)
               +++ ": " +++ msg).
Proof.
  apply (X10_error_names_a_line_of_the_text Release.t _ defaultOptions
           (text ["-"; "## x"])).
  vm_compute. reflexivity.
Defined.

(** X11.  A queue whose front token, after a flag token if there is
    one, is not a title makes [processTokens] throw the error of the
    missing token with the line of that front token, and leaves that token
    at the front. *)
Theorem X11_missing_title_is_reported :
  forall (R : Type) (RL : ReleaseLike R) (opts : Options R)
         (optionalFlag : list Token) (lineNumber : nat) (type : TokenType)
         (content : list string) (rest : list Token),
    type <> h1 ->
    (optionalFlag = [] /\ type <> flag) \/
    (exists l c, optionalFlag = [(l, flag, c)]) ->
    processTokens opts (optionalFlag ++ (lineNumber, type, content) :: rest)
    = (Throw (Error ("Required token missing in: " +++ dq
                       +++ numberToString lineNumber +++ dq)),
       (lineNumber, type, content) :: rest).
Proof. intros R RL opts. apply missing_title_reported. Qed.

Lemma X11_missing_title_is_reported_witness :
  processTokens defaultOptions ([(1, flag, ["f"])] ++ (2, h2, ["1.0.0"]) :: [])
  = (Throw (Error ("Required token missing in: " +++ dq
                     +++ numberToString 2 +++ dq)),
     [(2, h2, ["1.0.0"])]).
Proof.
  apply (X11_missing_title_is_reported Release.t _ defaultOptions
           [(1, flag, ["f"])] 2 h2 ["1.0.0"] []).
  - discriminate.
  - right. exists 1, ["f"]. reflexivity.
Defined.

(** X12.  The title of a returned changelog is the content of the [h1]
    token, its flag the content of the flag token before it (the empty
    string without one), and its description the content of the paragraph
    token after it (the empty string without one): nothing later in the
    queue changes them. *)
Theorem X12_header_fields_are_final :
  forall (R : Type) (RL : ReleaseLike R) (opts : Options R)
         (optionalFlag : list Token) (l : nat) (c : list string)
         (rest : list Token) (changelog : Changelog.t R) (left : list Token),
    optionalFlag = [] \/ (exists l0 c0, optionalFlag = [(l0, flag, c0)]) ->
    processTokens opts (optionalFlag ++ (l, h1, c) :: rest)
    = (Normal changelog, left) ->
    Changelog.title changelog = join nl c /\
    Changelog.flag changelog
    = Some (match optionalFlag with
            | (_, _, c0) :: _ => join nl c0
            | [] => EmptyString
            end) /\
    Changelog.description changelog
    = Some (match rest with
            | (_, para, d) :: _ => join nl d
            | _ => EmptyString
            end).
Proof.
  intros R RL opts optionalFlag l c rest changelog left Hflag Hp.
  apply processTokens_header in Hp as [cl0 [q0 [Hh [Hf [Ht Hd]]]]].
  rewrite Hf, Ht, Hd. revert Hh.
  destruct Hflag as [-> | [l0 [c0 ->]]];
    unfold headerPart, bind, getContent, ret; simpl;
    (destruct rest as [|[[l1 t1] c1] rest']; [|destruct t1]);
    intros Heq; injection Heq as <- _; auto.
Qed.

Lemma X12_header_fields_are_final_witness :
  Changelog.title
    (Changelog.mk (Some "f") "T" (Some "d") (@nil Release.t) None None)
  = join nl ["T"] /\
  Changelog.flag
    (Changelog.mk (Some "f") "T" (Some "d") (@nil Release.t) None None)
  = Some (join nl ["f"]) /\
  Changelog.description
    (Changelog.mk (Some "f") "T" (Some "d") (@nil Release.t) None None)
  = Some (join nl ["d"]).
Proof.
  apply (X12_header_fields_are_final Release.t _ defaultOptions
           [(1, flag, ["f"])] 2 ["T"] [(3, para, ["d"])]
           (Changelog.mk (Some "f") "T" (Some "d") [] None None) []).
  - right. exists 1, ["f"]. reflexivity.
  - vm_compute. reflexivity.
Defined.

(** X13.  The link loop, given fuel above the length of the queue as
    [processTokens] gives it, returns.  Once the address of the changelog
    is set, it returns the changelog unchanged: no link token changes the
    address.  When the address is not set and the link token at the front
    of the queue is a compare link, it returns the changelog with group 1
    of that link as address, a string that begins with [http], whatever the
    links after it are.  And with any fuel, what it returns is as said. *)
Theorem X13_first_compare_link_wins :
  forall (R : Type),
    (forall fuel (cl : Changelog.t R) q,
        urlUnset cl = false ->
        List.length q < fuel ->
        exists q', linksLoop fuel cl q = (Normal cl, q')) /\
    (forall fuel (cl : Changelog.t R) l c m q,
        urlUnset cl = true ->
        truthy (join nl c) = true ->
        exec compareLink (join nl c) = Some m ->
        List.length ((l, link, c) :: q) < fuel ->
        (exists q',
            linksLoop fuel cl ((l, link, c) :: q)
            = (Normal (Changelog.setUrl (group m 1) cl), q')) /\
        exists w, group m 1 = Some ("http" +++ w)) /\
    (forall fuel (cl cl' : Changelog.t R) q q',
        urlUnset cl = false ->
        linksLoop fuel cl q = (Normal cl', q') -> cl' = cl) /\
    (forall fuel (cl cl' : Changelog.t R) l c m q q',
        urlUnset cl = true ->
        truthy (join nl c) = true ->
        exec compareLink (join nl c) = Some m ->
        linksLoop (S fuel) cl ((l, link, c) :: q) = (Normal cl', q') ->
        cl' = Changelog.setUrl (group m 1) cl /\
        exists w, group m 1 = Some ("http" +++ w)).
Proof.
  intros R. split; [|split; [|split]].
  - intros fuel cl q Hset Hlen.
    destruct (linksLoop_returns fuel cl q Hlen) as [cl' [q' Hl]].
    exists q'. rewrite Hl. f_equal. f_equal.
    exact (linksLoop_set fuel cl cl' q q' Hset Hl).
  - intros fuel cl l c m q Hu Hc Hm Hlen. split.
    + destruct (linksLoop_returns fuel cl ((l, link, c) :: q) Hlen)
        as [cl' [q' Hl]].
      exists q'. rewrite Hl. f_equal. f_equal.
      destruct fuel as [|fuel]; [simpl in Hlen; lia|].
      exact (linksLoop_first fuel cl cl' l c m q q' Hu Hc Hm Hl).
    + eapply compareLink_group; eauto.
  - intros fuel cl cl' q q'. apply linksLoop_set.
  - intros fuel cl cl' l c m q q' Hu Hc Hm Hl. split.
    + eapply linksLoop_first; eauto.
    + eapply compareLink_group; eauto.
Qed.

Lemma X13_first_compare_link_wins_witness :
  (exists q',
      linksLoop 3 (@Changelog.new Release.t "T")
        [(2, link, ["[a]: http://h/r/compare/a...b"]);
         (3, link, ["[b]: http://other/compare/x"])]
      = (Normal
           (Changelog.setUrl
              (group (mkMatch 0 "[a]: http://h/r/compare/a...b" EmptyString
                        ["http://h/r"]) 1)
              (Changelog.new "T")), q')) /\
  exists w,
    group (mkMatch 0 "[a]: http://h/r/compare/a...b" EmptyString ["http://h/r"]) 1
    = Some ("http" +++ w).
Proof.
  apply (proj1 (proj2 (X13_first_compare_link_wins Release.t)) 3
           (Changelog.new "T")
           2 ["[a]: http://h/r/compare/a...b"]
           (mkMatch 0 "[a]: http://h/r/compare/a...b" EmptyString ["http://h/r"])
           [(3, link, ["[b]: http://other/compare/x"])]).
  - reflexivity.
  - reflexivity.
  - vm_compute. reflexivity.
  - simpl. lia.
Defined.

(** X14.  The label a release is created with is never empty and never
    holds a closing bracket; the date it is created with is four digits,
    one or two digits and one or two digits with dashes between, and a
    release with a date has a label. *)
Theorem X14_release_arguments_shape
    (release : string) (label date : option string) :
  releaseArguments release = Normal (label, date) ->
  (forall l, label = Some l ->
             l <> EmptyString /\ allIn (except "]") l = true) /\
  (forall d, date = Some d -> dateShape d /\ label <> None).
Proof.
  unfold releaseArguments.
  destruct (exec datedRelease release) as [m|] eqn:Hm.
  - apply exec_sound in Hm.
    change (groupSpecs datedRelease) with [Plus (except "]"); datePattern] in Hm.
    inversion Hm as [|g1 r1 gs1 rs1 Hg1 Hrest Hgs]; subst.
    inversion Hrest as [|g2 r2 gs2 rs2 Hg2 Hnil]; subst.
    inversion Hnil; subst.
    unfold group. rewrite <- Hgs. simpl.
    intros Heq. injection Heq as <- <-. split.
    + intros l Hl. injection Hl as <-. now apply denotes_Plus_nonempty.
    + intros d Hd. injection Hd as <-.
      split; [now apply denotes_datePattern | discriminate].
  - destruct (includes release "unreleased"); [|discriminate].
    destruct (exec unreleasedRelease release) as [m|] eqn:Hu.
    + apply exec_sound in Hu.
      change (groupSpecs unreleasedRelease) with [Plus (except "]")] in Hu.
      inversion Hu as [|g1 r1 gs1 rs1 Hg1 Hnil Hgs]; subst.
      inversion Hnil; subst.
      unfold group. rewrite <- Hgs. simpl.
      intros Heq. injection Heq as <- <-. split.
      * intros l Hl. injection Hl as <-. now apply denotes_Plus_nonempty.
      * discriminate.
    + intros Heq. injection Heq as <- <-. split; discriminate.
Qed.

Lemma X14_release_arguments_shape_witness :
  (forall l, Some "1.0 " = Some l ->
             l <> EmptyString /\ allIn (except "]") l = true) /\
  (forall d, Some "2024-1-05" = Some d -> dateShape d /\ Some "1.0 " <> None).
Proof.
  apply (X14_release_arguments_shape "1.0 - 2024-1-05"
           (Some "1.0 ") (Some "2024-1-05")).
  vm_compute. reflexivity.
Defined.

(** X15.  A returned changelog has exactly one release for each [h2]
    token of the text. *)
Theorem X15_one_release_per_header :
  forall (R : Type) (RL : ReleaseLike R) (opts : Options R)
         (markdown : string) (changelog : Changelog.t R),
    parser opts markdown = Normal changelog ->
    exists tokens,
      tokenize markdown = Normal tokens /\
      List.length (Changelog.releases changelog) = countType h2 tokens.
Proof.
  intros R RL opts markdown changelog. unfold parser.
  destruct (tokenize_normal markdown) as [tokens Htok]. rewrite Htok.
  cbn [bindC].
  destruct (processTokens opts tokens) as [[cl| e |] q] eqn:Hp;
    try discriminate.
  - intros Heq. injection Heq as <-. exists tokens. split; [reflexivity|].
    apply (processTokens_release_count opts tokens cl q); [|exact Hp].
    pose proof (tokenize_solid markdown tokens Htok) as Hs.
    unfold allTruthy. rewrite Forall_forall in *.
    intros t Hin. apply solid_truthy. now apply Hs.
  - destruct q as [|[[n t] c] q]; discriminate.
Qed.

Lemma X15_one_release_per_header_witness :
  exists tokens,
    tokenize (text ["# T"; "## [1.0] - 2024-01-15"; "## Unreleased"])
    = Normal tokens /\
    List.length
      (Changelog.releases
         (Changelog.mk (Some EmptyString) "T" (Some EmptyString)
            [Release.mk (Some "1.0") (Some "2024-01-15") (Some EmptyString) [];
             Release.mk None None (Some EmptyString) []]
            None None))
    = countType h2 tokens.
Proof.
  apply (X15_one_release_per_header Release.t _ defaultOptions
           (text ["# T"; "## [1.0] - 2024-01-15"; "## Unreleased"])).
  vm_compute. reflexivity.
Defined.

End Further.

(** ** White space around the text, and the tokens a changelog has once *)

Section OnceFacts.

Import JS RegExp.

Context {R : Type} `{ReleaseLike R}.
Variable opts : Options R.

Lemma trimStart_blank_prefix (a s : string) :
  allWhiteSpace a = true -> trimStart (a +++ s) = trimStart s.
Proof.
  induction a as [|c a IH]; simpl; [reflexivity|].
  intros Hb. apply andb_prop in Hb as [Hc Ha]. rewrite Hc. auto.
Qed.

Lemma trimEnd_blank (b : string) : allWhiteSpace b = true -> trimEnd b = EmptyString.
Proof.
  intros Hb. rewrite <- isEmptyString_trimEnd in Hb.
  destruct (trimEnd b); [reflexivity | discriminate].
Qed.

Lemma trimEnd_blank_suffix (s b : string) :
  allWhiteSpace b = true -> trimEnd (s +++ b) = trimEnd s.
Proof.
  intros Hb. induction s as [|c s IH]; simpl.
  - now apply trimEnd_blank.
  - now rewrite IH.
Qed.

Lemma trim_blank_suffix (s b : string) :
  allWhiteSpace b = true -> trim (s +++ b) = trim s.
Proof.
  intros Hb. unfold trim. induction s as [|c s IH]; simpl.
  - now rewrite allWhiteSpace_trimStart.
  - destruct (isWhiteSpace c); [exact IH|].
    apply (trimEnd_blank_suffix (String c s) b Hb).
Qed.

Lemma trim_blank_around (a s b : string) :
  allWhiteSpace a = true -> allWhiteSpace b = true ->
  trim (a +++ s +++ b) = trim s.
Proof.
  intros Ha Hb. unfold trim. rewrite trimStart_blank_prefix by exact Ha.
  now apply trim_blank_suffix.
Qed.

Lemma ret_keeps_type type {A} (a : A) : keeps type (ret a).
Proof. intros q. reflexivity. Qed.

Lemma bind_keeps_type type {A B} (m : M A) (k : A -> M B) :
  keeps type m -> (forall a, keeps type (k a)) -> keeps type (bind m k).
Proof.
  intros Hm Hk q. unfold bind. specialize (Hm q).
  destruct (m q) as [[a| e |] q']; cbn [snd] in *; auto.
  now rewrite Hk.
Qed.

Lemma while_keeps_type type {St} (cond : M string) (body : string -> St -> M St) :
  keeps type cond -> (forall x s, keeps type (body x s)) ->
  forall fuel s, keeps type (while fuel cond body s).
Proof.
  intros Hc Hb. induction fuel as [|fuel IH]; intros s; cbn [while].
  - intros q. reflexivity.
  - apply bind_keeps_type; [exact Hc|]. intros x.
    destruct (truthy x); [|apply ret_keeps_type].
    apply bind_keeps_type; [apply Hb | apply IH].
Qed.

Lemma TokenType_eqb_eq (a b : TokenType) : TokenType_eqb a b = true <-> a = b.
Proof. destruct a, b; simpl; split; intros; congruence. Qed.

Lemma TokenType_eqb_neq (a b : TokenType) : a <> b -> TokenType_eqb a b = false.
Proof.
  intros Hne. destruct (TokenType_eqb a b) eqn:E; [|reflexivity].
  apply TokenType_eqb_eq in E. contradiction.
Qed.

Lemma countType_cons (type : TokenType) (l : nat) (t : TokenType)
    (c : list string) (q : list Token) :
  countType type ((l, t, c) :: q)
  = (if TokenType_eqb t type then 1 else 0) + countType type q.
Proof.
  unfold countType. simpl. unfold typeOf at 1. simpl.
  destruct (TokenType_eqb t type); reflexivity.
Qed.

(** [getContent] takes at most one token, of the type asked for. *)
Lemma getContent_takes type asked required (q : list Token) :
  (type <> asked ->
   countType type (snd (getContent asked required q)) = countType type q) /\
  countType type (snd (getContent asked required q)) <= countType type q /\
  countType type q <= S (countType type (snd (getContent asked required q))).
Proof.
  unfold getContent. destruct q as [|[[l t] c] rest].
  - destruct required; simpl; repeat split; lia.
  - destruct (TokenType_eqb t asked) eqn:Ht; simpl.
    + apply TokenType_eqb_eq in Ht. subst t. rewrite countType_cons.
      repeat split.
      * intros Hne. rewrite TokenType_eqb_neq by congruence. reflexivity.
      * lia.
      * destruct (TokenType_eqb asked type); lia.
    + destruct required; simpl; repeat split; lia.
Qed.

Lemma getContent_keeps_type type asked required :
  type <> asked -> keeps type (getContent asked required).
Proof. intros Hne q. now apply getContent_takes. Qed.

Lemma getContent_required_takes type (q q' : list Token) (x : string) :
  getContent type true q = (Normal x, q') ->
  countType type q = S (countType type q').
Proof.
  unfold getContent. destruct q as [|[[l t] c] rest]; [discriminate|].
  destruct (TokenType_eqb t type) eqn:Ht; simpl; [|discriminate].
  intros Heq. injection Heq as _ <-. rewrite countType_cons, Ht. reflexivity.
Qed.

Lemma lowered_keeps_type type asked :
  type <> asked ->
  keeps type (x <~ getContent asked false ;; ret (toLowerCase x)).
Proof.
  intros Hne. apply bind_keeps_type; [now apply getContent_keeps_type|].
  intros. apply ret_keeps_type.
Qed.

Lemma releasesLoop_keeps_type type fuel (changelog : Changelog.t R) :
  type <> h2 -> type <> para -> type <> h3 -> type <> li ->
  keeps type (releasesLoop opts fuel changelog).
Proof.
  intros N2 Np N3 Nl.
  apply while_keeps_type; [now apply lowered_keeps_type|]. intros release cl.
  apply bind_keeps_type; [intros q; reflexivity|]. intros args.
  apply bind_keeps_type; [now apply getContent_keeps_type|]. intros d.
  apply bind_keeps_type; [|intros; apply ret_keeps_type].
  apply while_keeps_type; [now apply lowered_keeps_type|]. intros ty r.
  apply while_keeps_type; [now apply getContent_keeps_type|].
  intros. apply ret_keeps_type.
Qed.

Lemma linksLoop_keeps_type type fuel (changelog : Changelog.t R) :
  type <> link -> keeps type (linksLoop fuel changelog).
Proof.
  intros Nl.
  apply while_keeps_type; [now apply getContent_keeps_type|]. intros l cl.
  destruct (urlUnset cl); [|apply ret_keeps_type].
  destruct (exec compareLink l); apply ret_keeps_type.
Qed.

(** A returned changelog means a queue with exactly one title token, at
    most one flag token and at most one rule token. *)
Lemma processTokens_once tokens (changelog : Changelog.t R) rest :
  processTokens opts tokens = (Normal changelog, rest) ->
  countType h1 tokens = 1 /\
  countType flag tokens <= 1 /\
  countType hr tokens <= 1.
Proof.
  unfold processTokens, beforeFooter, headerPart, bind at 1 2 3.
  pose proof (getContent_takes h1 flag false tokens) as [Ha1 _].
  pose proof (getContent_takes flag flag false tokens) as [_ Ha2].
  pose proof (getContent_takes hr flag false tokens) as [Ha3 _].
  destruct (getContent flag false tokens) as [[f| e |] qa]; try discriminate.
  cbn [snd] in *. unfold bind at 1.
  pose proof (getContent_required_takes h1 qa) as Hb1.
  pose proof (getContent_takes flag h1 true qa) as [Hb2 _].
  pose proof (getContent_takes hr h1 true qa) as [Hb3 _].
  destruct (getContent h1 true qa) as [[t| e |] qb]; try discriminate.
  specialize (Hb1 qb t eq_refl). cbn [snd] in *. unfold bind at 1.
  pose proof (getContent_takes h1 para false qb) as [Hc1 _].
  pose proof (getContent_takes flag para false qb) as [Hc2 _].
  pose proof (getContent_takes hr para false qb) as [Hc3 _].
  destruct (getContent para false qb) as [[d| e |] qc]; try discriminate.
  cbn [snd] in *. unfold ret at 1. unfold bind at 1.
  set (cl0 := Changelog.setDescription d _).
  set (fuel := S (List.length tokens)).
  pose proof (releasesLoop_keeps_type h1 fuel cl0
                ltac:(discriminate) ltac:(discriminate)
                ltac:(discriminate) ltac:(discriminate) qc) as Hd1.
  pose proof (releasesLoop_keeps_type flag fuel cl0
                ltac:(discriminate) ltac:(discriminate)
                ltac:(discriminate) ltac:(discriminate) qc) as Hd2.
  pose proof (releasesLoop_keeps_type hr fuel cl0
                ltac:(discriminate) ltac:(discriminate)
                ltac:(discriminate) ltac:(discriminate) qc) as Hd3.
  destruct (releasesLoop opts fuel cl0 qc) as [[cl1| e |] qd]; try discriminate.
  cbn [snd] in *.
  pose proof (linksLoop_keeps_type h1 fuel cl1 ltac:(discriminate) qd) as He1.
  pose proof (linksLoop_keeps_type flag fuel cl1 ltac:(discriminate) qd) as He2.
  pose proof (linksLoop_keeps_type hr fuel cl1 ltac:(discriminate) qd) as He3.
  destruct (linksLoop fuel cl1 qd) as [[cl2| e |] qe]; try discriminate.
  cbn [snd] in *. unfold footerPart, bind.
  pose proof (getContent_takes h1 hr false qe) as [Hf1 _].
  pose proof (getContent_takes flag hr false qe) as [Hf2 _].
  pose proof (getContent_takes hr hr false qe) as [_ Hf3].
  destruct (getContent hr false qe) as [[rule| e |] qf]; try discriminate.
  cbn [snd] in *.
  assert (Hend : forall qg, countType h1 qg = countType h1 qf ->
                            countType flag qg = countType flag qf ->
                            countType hr qg = countType hr qf ->
                            qg = [] ->
                            countType h1 tokens = 1 /\
                            countType flag tokens <= 1 /\
                            countType hr tokens <= 1).
  { intros qg G1 G2 G3 ->. unfold countType at 1 in G1.
    unfold countType at 1 in G2. unfold countType at 1 in G3. simpl in *.
    specialize (Ha1 ltac:(discriminate)). specialize (Ha3 ltac:(discriminate)).
    specialize (Hb2 ltac:(discriminate)). specialize (Hb3 ltac:(discriminate)).
    specialize (Hc1 ltac:(discriminate)). specialize (Hc2 ltac:(discriminate)).
    specialize (Hc3 ltac:(discriminate)).
    specialize (Hf1 ltac:(discriminate)). specialize (Hf2 ltac:(discriminate)).
    lia. }
  destruct (truthy rule).
  - pose proof (getContent_takes h1 para false qf) as [Hg1 _].
    pose proof (getContent_takes flag para false qf) as [Hg2 _].
    pose proof (getContent_takes hr para false qf) as [Hg3 _].
    destruct (getContent para false qf) as [[ft| e |] qg]; try discriminate.
    cbn [snd] in *. unfold ret, endPart. destruct qg; [|discriminate].
    intros _. apply (Hend []); auto;
      [apply Hg1 | apply Hg2 | apply Hg3]; discriminate.
  - unfold ret, endPart. destruct qf; [|discriminate].
    intros _. now apply (Hend []).
Qed.

End OnceFacts.

Section FurtherOnce.

Import JS RegExp.

(** X16.  White space before and after the text, blank lines included,
    changes neither the tokens nor the result of the parse; the line
    numbers of the tokens, and the line an error names, are thus counted
    from the first line that is not blank. *)
Theorem X16_white_space_around_is_ignored :
  forall (R : Type) (RL : ReleaseLike R) (opts : Options R)
         (before markdown after : string),
    allWhiteSpace before = true ->
    allWhiteSpace after = true ->
    tokenize (before +++ markdown +++ after) = tokenize markdown /\
    parser opts (before +++ markdown +++ after) = parser opts markdown.
Proof.
  intros R RL opts before markdown after Hb Ha.
  assert (Ht : tokenize (before +++ markdown +++ after) = tokenize markdown)
    by (unfold tokenize; now rewrite trim_blank_around).
  split; [exact Ht|]. unfold parser. now rewrite Ht.
Qed.

Lemma X16_white_space_around_is_ignored_witness :
  tokenize ((nl +++ nl +++ " ") +++ text ["# T"; "- x"] +++ nl)
  = tokenize (text ["# T"; "- x"]) /\
  parser defaultOptions ((nl +++ nl +++ " ") +++ text ["# T"; "- x"] +++ nl)
  = parser defaultOptions (text ["# T"; "- x"]).
Proof.
  apply (X16_white_space_around_is_ignored Release.t _ defaultOptions
           (nl +++ nl +++ " ") (text ["# T"; "- x"]) nl);
    reflexivity.
Defined.

(** X17.  A changelog is returned only for a queue with exactly one
    title token, at most one flag token and at most one rule token. *)
Theorem X17_one_title_one_flag_one_rule :
  forall (R : Type) (RL : ReleaseLike R) (opts : Options R)
         (tokens : list Token),
    match processTokens opts tokens with
    | (Normal _, _) =>
        countType h1 tokens = 1 /\
        countType flag tokens <= 1 /\
        countType hr tokens <= 1
    | _ => True
    end.
Proof.
  intros R RL opts tokens.
  destruct (processTokens opts tokens) as [[cl| e |] rest] eqn:Hp; auto.
  eapply processTokens_once; eauto.
Qed.

End FurtherOnce.

(** ** The label of every release (parser.ts, lines 46-62) *)

Section LabelFacts.

Import JS RegExp.

Context {R : Type} `{ReleaseLike R}.
Variable opts : Options R.

Lemma createdFrom_incl (tokens tokens' : list Token) (r : R) :
  incl tokens tokens' -> createdFrom opts tokens r -> createdFrom opts tokens' r.
Proof.
  intros Hincl Hc. induction Hc as [l c label date Hin Hargs | d r _ IH | t ch r _ IH].
  - apply (created_new opts tokens' l c); auto.
  - now constructor.
  - now constructor.
Qed.

Lemma leaves_incl {A} (m : M A) (q : list Token) :
  leaves m -> incl (snd (m q)) q.
Proof.
  intros Hm. destruct (Hm q) as [taken Ht].
  intros t Hin. rewrite Ht. apply in_or_app. now right.
Qed.

Lemma typesLoop_created tokens fuel (r r' : R) q q' :
  createdFrom opts tokens r ->
  typesLoop fuel r q = (Normal r', q') -> createdFrom opts tokens r'.
Proof.
  unfold typesLoop. apply while_preserves.
  intros type s q0 s' q0'. unfold changesLoop. apply while_preserves.
  intros change s1 q1 s1' q1' Hs. unfold ret.
  intros Heq. injection Heq as <- _. now constructor.
Qed.

(** Every turn of the release loop adds a release made from the
    lower-cased text of the [h2] token it took. *)
Lemma releasesLoop_created fuel tokens :
  forall limit (cl cl' : Changelog.t R) q q',
    incl q tokens ->
    Forall (createdFrom opts tokens) (Changelog.releases cl) ->
    while limit (release <~ getContent h2 false ;; ret (toLowerCase release))
      (fun release changelog =>
         args <~ lift (releaseArguments release) ;;
         let release := releaseCreator opts (fst args) (snd args) None in
         description <~ getContent para false ;;
         let release := setDescription description release in
         release <~ typesLoop fuel release ;;
         ret (Changelog.addRelease release changelog)) cl q
    = (Normal cl', q') ->
    Forall (createdFrom opts tokens) (Changelog.releases cl').
Proof.
  induction limit as [|limit IH]; intros cl cl' q q' Hq Hcl; cbn [while].
  - discriminate.
  - unfold bind at 1. unfold bind at 1, getContent at 1, ret at 1.
    destruct q as [|[[l t] c] rest].
    + cbn. unfold ret. intros Heq. now injection Heq as <- _.
    + destruct (TokenType_eqb t h2) eqn:Ht; cbn [negb].
      2:{ cbn. unfold ret. intros Heq. now injection Heq as <- _. }
      apply TokenType_eqb_eq in Ht. subst t.
      destruct (truthy (toLowerCase (join nl c))) eqn:Hx.
      2:{ unfold ret. intros Heq. now injection Heq as <- _. }
      unfold bind at 1. unfold bind at 1. unfold lift.
      destruct (releaseArguments (toLowerCase (join nl c))) as [[label date]| |]
        eqn:Hargs; try discriminate.
      cbn [fst snd]. unfold bind at 1.
      pose proof (leaves_incl _ rest (getContent_leaves para false)) as Hi1.
      destruct (getContent para false rest) as [[d| e |] q2]; try discriminate.
      cbn [snd] in Hi1. unfold bind at 1.
      assert (Hnew : createdFrom opts tokens
                       (setDescription d (releaseCreator opts label date None))).
      { constructor. apply (created_new opts tokens l c); [|exact Hargs].
        apply Hq. now left. }
      pose proof (typesLoop_created tokens fuel
                    (setDescription d (releaseCreator opts label date None))) as Ht.
      assert (Hi2 : incl (snd (typesLoop fuel
                                 (setDescription d
                                    (releaseCreator opts label date None)) q2)) q2).
      { apply leaves_incl.
        apply while_leaves; [apply lowered_leaves|]. intros type r.
        apply while_leaves; [apply getContent_leaves|]. intros. apply ret_leaves. }
      destruct (typesLoop fuel _ q2) as [[r| e |] q3] eqn:Hty;
        try discriminate.
      cbn [snd] in Hi2. unfold ret at 1.
      apply IH.
      * intros x Hin. apply Hq. right. apply Hi1. now apply Hi2.
      * unfold Changelog.addRelease. cbn [Changelog.releases].
        apply Forall_app. split; [exact Hcl|].
        constructor; [|constructor]. exact (Ht r q2 q3 Hnew Hty).
Qed.

Lemma processTokens_created tokens (changelog : Changelog.t R) rest :
  processTokens opts tokens = (Normal changelog, rest) ->
  Forall (createdFrom opts tokens) (Changelog.releases changelog).
Proof.
  unfold processTokens, beforeFooter, bind at 1 2.
  pose proof (leaves_incl (@headerPart R) tokens) as Hi0.
  destruct (headerPart tokens) as [[cl0| e |] q0] eqn:Hh; try discriminate.
  assert (Hr0 : Changelog.releases cl0 = []).
  { revert Hh. unfold headerPart, bind, ret.
    destruct (getContent flag false tokens) as [[f| |] qa]; try discriminate.
    destruct (getContent h1 true qa) as [[t| |] qb]; try discriminate.
    destruct (getContent para false qb) as [[d| |] qc]; try discriminate.
    intros Heq. now injection Heq as <- _. }
  cbn [snd] in Hi0. unfold bind at 1.
  destruct (releasesLoop opts _ cl0 q0) as [[cl1| e |] q1] eqn:Hr;
    try discriminate.
  unfold releasesLoop in Hr.
  apply (releasesLoop_created _ tokens) in Hr.
  2:{ apply Hi0. unfold headerPart.
      apply bind_leaves; [apply getContent_leaves|]. intros f.
      apply bind_leaves; [apply getContent_leaves|]. intros t.
      apply bind_leaves; [apply getContent_leaves|]. intros d. apply ret_leaves. }
  2:{ rewrite Hr0. constructor. }
  destruct (linksLoop _ cl1 q1) as [[cl2| e |] q2] eqn:Hl; try discriminate.
  apply linksLoop_releases in Hl.
  unfold bind at 1.
  assert (Hf : forall cl3 q3, footerPart cl2 q2 = (Normal cl3, q3) ->
                              Changelog.releases cl3 = Changelog.releases cl2).
  { unfold footerPart, bind, ret. intros cl3 q3.
    destruct (getContent hr false q2) as [[rule| |] qa]; try discriminate.
    destruct (truthy rule).
    - destruct (getContent para false qa) as [[f| |] qb]; try discriminate.
      intros Heq. now injection Heq as <- _.
    - intros Heq. now injection Heq as <- _. }
  destruct (footerPart cl2 q2) as [[cl3| e |] q3]; try discriminate.
  specialize (Hf cl3 q3 eq_refl).
  unfold endPart. destruct q3; [|discriminate].
  intros Heq. injection Heq as <- _.
  now rewrite Hf, Hl.
Qed.

End LabelFacts.

Section LabelClaim.

Import JS RegExp.

(** With the release record, what the factory was given as label is
    what the record holds as version. *)
Lemma createdFrom_lowerCase (tokens : list Token) (r : Release.t) :
  createdFrom defaultOptions tokens r -> lowerCaseLabel tokens r.
Proof.
  intros Hc. induction Hc as [l c label date Hin Hargs | d r _ IH | t ch r _ IH].
  - intros lab Hv. simpl in Hv. subst label.
    pose proof (releaseArguments_label _ _ _ Hargs) as Hsub.
    split; [exact (substringOf_lower _ _ Hsub)|].
    exists l, c. auto.
  - exact IH.
  - exact IH.
Qed.

(** C10.  In every returned changelog, every release was created by the
    factory with the arguments found in the lower-cased text of an [h2]
    token of the queue, whatever the queue holds before, between and after
    the release headers; the label found there is a piece of that
    lower-cased text and is in lower case.  So with the release record
    every version stored is in lower case: the lower case taken for the
    match is what is stored, and the header [[RC1] - 2024-01-15] gives a
    release created with the label [rc1]. *)
Theorem C10_label_is_lower_case :
  (forall (R : Type) (RL : ReleaseLike R) (opts : Options R),
      (forall (tokens : list Token) (changelog : Changelog.t R)
              (rest : list Token),
          processTokens opts tokens = (Normal changelog, rest) ->
          Forall (createdFrom opts tokens) (Changelog.releases changelog)) /\
      (forall (header label : string) (date : option string),
          releaseArguments (toLowerCase header) = Normal (Some label, date) ->
          substringOf label (toLowerCase header) /\
          toLowerCase label = label) /\
      (forall (l1 l2 : nat) (title header label : string) (date : option string),
          truthy header = true ->
          releaseArguments (toLowerCase header) = Normal (Some label, date) ->
          processTokens opts [(l1, h1, [title]); (l2, h2, [header])]
          = (Normal
               (Changelog.mk (Some EmptyString) title (Some EmptyString)
                  [setDescription EmptyString
                     (releaseCreator opts (Some label) date None)]
                  None None), []) /\
          substringOf label (toLowerCase header) /\
          toLowerCase label = label) /\
      parser opts (text ["# Title"; EmptyString; "## [RC1] - 2024-01-15"; EmptyString])
      = Normal
          (Changelog.mk (Some EmptyString) "Title" (Some EmptyString)
             [setDescription EmptyString
                (releaseCreator opts (Some "rc1") (Some "2024-01-15") None)]
             None None)) /\
  (forall (tokens : list Token) (changelog : Changelog.t Release.t)
          (rest : list Token),
      processTokens defaultOptions tokens = (Normal changelog, rest) ->
      Forall (lowerCaseLabel tokens) (Changelog.releases changelog)).
Proof.
  split.
  - intros R RL opts. split; [|split; [|split]].
    + intros tokens changelog rest. apply processTokens_created.
    + intros header label date Hargs.
      pose proof (releaseArguments_label _ _ _ Hargs) as Hsub.
      split; [exact Hsub | exact (substringOf_lower _ _ Hsub)].
    + intros l1 l2 title header label date Hh Hargs.
      pose proof (releaseArguments_label _ _ _ Hargs) as Hsub.
      repeat split.
      * rewrite (processTokens_one_release opts l1 l2 title header Hh), Hargs.
        reflexivity.
      * exact Hsub.
      * exact (substringOf_lower _ _ Hsub).
    + vm_compute. reflexivity.
  - intros tokens changelog rest Hp.
    apply processTokens_created in Hp.
    eapply Forall_impl; [|exact Hp].
    intros r. apply createdFrom_lowerCase.
Qed.

(** Two releases with a description and changes between them, the
    second header after the changes of the first. *)
Lemma C10_label_is_lower_case_witness :
  Forall
    (lowerCaseLabel
       [(1, flag, ["f"]); (2, h1, ["T"]); (3, para, ["about"]);
        (4, h2, ["[RC1] - 2024-01-15"]); (5, para, ["first"]);
        (6, h3, ["Added"]); (7, li, ["x"]);
        (8, h2, ["[V2] - Unreleased"])])
    (Changelog.releases
       (Changelog.mk (Some "f") "T" (Some "about")
          [Release.mk (Some "rc1") (Some "2024-01-15") (Some "first")
             [("added", ["x"])];
           Release.mk (Some "v2") None (Some EmptyString) []]
          None None)) /\
  (processTokens defaultOptions [(1, h1, ["Title"]); (3, h2, ["[RC1] - 2024-01-15"])]
   = (Normal
        (Changelog.mk (Some EmptyString) "Title" (Some EmptyString)
           [setDescription EmptyString
              (releaseCreator defaultOptions (Some "rc1") (Some "2024-01-15") None)]
           None None), []) /\
   substringOf "rc1" (toLowerCase "[RC1] - 2024-01-15") /\
   toLowerCase "rc1" = "rc1").
Proof.
  split.
  - apply (proj2 C10_label_is_lower_case
             [(1, flag, ["f"]); (2, h1, ["T"]); (3, para, ["about"]);
              (4, h2, ["[RC1] - 2024-01-15"]); (5, para, ["first"]);
              (6, h3, ["Added"]); (7, li, ["x"]);
              (8, h2, ["[V2] - Unreleased"])]
             (Changelog.mk (Some "f") "T" (Some "about")
                [Release.mk (Some "rc1") (Some "2024-01-15") (Some "first")
                   [("added", ["x"])];
                 Release.mk (Some "v2") None (Some EmptyString) []]
                None None) []).
    vm_compute. reflexivity.
  - apply (proj1 (proj2 (proj2 (proj1 C10_label_is_lower_case Release.t _
                                  defaultOptions)))
             1 3 "Title" "[RC1] - 2024-01-15" "rc1" (Some "2024-01-15")).
    + reflexivity.
    + vm_compute. reflexivity.
Defined.

End LabelClaim.
